(** * 2048-battle: the grid engine and the multiplayer message handlers

    A shallow embedding of [common/backend/grid/grid.go] (the tile matrix,
    [Move], [Reset], [Outcome]) and of the message handlers of the
    multiplayer screen, followed by the properties the specification
    states about them. *)

From stdpp Require Import list numbers strings.
From Stdlib Require Import QArith.

Local Open Scope Z_scope.

(** ** The ambient world: the random generator and the identifier issuer

    [math/rand] and [uuid.NewV7] are process-wide effects.  The generator is
    a fixed stream of outputs read through a cursor; [uuid.NewV7] hands out
    identifiers that were never handed out before, here the successor of a
    counter (the nil identifier is [0]).  A computation is a function of the
    world that either yields a value and the next world, or is still
    spinning in a retry loop when its fuel is spent ([None]). *)

Record World := mkWorld {
  stream : nat -> Z;   (* the outputs of the generator, in order *)
  drawn : nat;         (* how many outputs were consumed *)
  issued : nat         (* the last identifier handed out *)
}.

Definition M (A : Type) : Type := World -> option (A * World).

#[global] Instance M_ret : MRet M := fun A a w => Some (a, w).
#[global] Instance M_bind : MBind M := fun A B f m w =>
  match m w with
  | Some (a, w') => f a w'
  | None => None
  end.

(** The loop is still running: the fuel of the model ran out. *)
Definition spinning {A} : M A := fun _ => None.

Definition draw : M Z := fun w =>
  Some (stream w (drawn w), mkWorld (stream w) (S (drawn w)) (issued w)).

(** [rand.Intn(n)]: an output reduced to [[0, n)]. *)
Definition rand_Intn (n : nat) : M nat :=
  r ← draw; mret (Z.to_nat (r `mod` Z.of_nat n)).

(** [rand.Float64()]: an output read as a multiple of [2^-53] in [[0, 1)]. *)
Definition rand_Float64 : M Q :=
  r ← draw; mret (Qmake (r `mod` 2 ^ 53) (2 ^ 53)%positive).

Definition uuid_UUID := nat.

(** [uuid.Must(uuid.NewV7())] *)
Definition uuid_NewV7 : M uuid_UUID := fun w =>
  Some (S (issued w), mkWorld (stream w) (drawn w) (S (issued w))).

(** [for i := range xs { st = body i st }] *)
Fixpoint forEach {St} (xs : list nat) (body : nat -> St -> M St) (st : St) : M St :=
  match xs with
  | [] => mret st
  | i :: xs' => st' ← body i st; forEach xs' body st'
  end.

(** Go's [int] on the 64-bit targets of the game: addition wraps around. *)
Definition int_wrap (z : Z) : Z := (z + 2 ^ 63) `mod` 2 ^ 64 - 2 ^ 63.
Definition int_add (a b : Z) : Z := int_wrap (a + b).

(** ** Tiles and the grid *)

Definition GridSize : nat := 4.
Definition gridWidth : nat := GridSize.
Definition gridHeight : nat := GridSize.

Definition emptyTile : Z := 0.

Record Tile := mkTile {
  Val : Z;      (* the value of the number on the tile *)
  Cmb : bool;   (* whether the tile was combined in the current turn *)
  UUID : uuid_UUID   (* unique ID for each tile *)
}.

(** The zero value [Tile{}]. *)
Definition zeroTile : Tile := mkTile 0 false 0%nat.
#[global] Instance Tile_inhabited : Inhabited Tile := populate zeroTile.

Definition setVal (v : Z) (t : Tile) : Tile := mkTile v (Cmb t) (UUID t).
Definition setCmb (c : bool) (t : Tile) : Tile := mkTile (Val t) c (UUID t).
Definition setUUID (u : uuid_UUID) (t : Tile) : Tile := mkTile (Val t) (Cmb t) u.

Definition Direction := string.
Definition DirUp : Direction := "up".
Definition DirDown : Direction := "down".
Definition DirLeft : Direction := "left".
Definition DirRight : Direction := "right".

(** [Grid]; the mutex [mu] only serialises callers and is not modelled. *)
Record Grid := mkGrid {
  Tiles : list (list Tile);
  LastMove : Direction
}.

(** The array type [[4][4]Tile]. *)
Definition wf (t : list (list Tile)) : Prop :=
  length t = gridWidth /\ Forall (fun r => length r = gridHeight) t.

(** [m[i][j]] *)
Definition cell (m : list (list Tile)) (i j : nat) : Tile := (m !!! i) !!! j.

(** [m[i][j].f = ...] *)
Definition alterCell (f : Tile -> Tile) (i j : nat) (m : list (list Tile)) :
    list (list Tile) :=
  alter (alter f j) i m.

Definition zeroTiles : list (list Tile) :=
  replicate gridHeight (replicate gridWidth zeroTile).

(** [transpose] returns a transposed version of the grid. *)
Definition transpose (matrix : list (list Tile)) : list (list Tile) :=
  foldl (fun transposed i =>
    foldl (fun transposed j =>
      alterCell (fun _ => cell matrix i j) j i transposed)
      transposed (seq 0 gridHeight))
    zeroTiles (seq 0 gridWidth).

(** [NewTiles] generates a fresh set of tiles. *)
Definition NewTiles : M (list (list Tile)) :=
  forEach (seq 0 (length zeroTiles)) (fun i t =>
    forEach (seq 0 (length (t !!! i))) (fun j t =>
      u ← uuid_NewV7; mret (alterCell (setUUID u) i j t)) t)
    zeroTiles.

(** [newTileVal] generates the value of a new tile. *)
Definition newTileVal : M Z :=
  f ← rand_Float64; mret (if Qle_bool (9 # 10) f then 4 else 2).

(** [Equal] returns whether tile t is equal to t2. *)
Definition Equal (t t2 : Tile) : bool :=
  (Val t =? Val t2) && Bool.eqb (Cmb t) (Cmb t2) && (UUID t =? UUID t2)%nat.

(** [EqualGrid] returns whether grid g1 is equal to g2. *)
Definition EqualGrid (g1 g2 : list (list Tile)) : bool :=
  forallb (fun i =>
    forallb (fun j => Equal (cell g1 i j) (cell g2 i j)) (seq 0 gridHeight))
    (seq 0 gridWidth).

(** [NumTiles] returns the number of non zero tiles on the grid. *)
Definition NumTiles (g : Grid) : Z :=
  foldl (fun n i =>
    foldl (fun n j => if negb (Val (cell (Tiles g) i j) =? 0) then n + 1 else n)
      n (seq 0 (length (Tiles g !!! i))))
    0 (seq 0 (length (Tiles g))).

(** [ClearCmbFlags] clears the Cmb flag of every tile. *)
Definition ClearCmbFlags (g : Grid) : Grid :=
  mkGrid
    (foldl (fun t i =>
       foldl (fun t j => alterCell (setCmb false) i j t)
         t (seq 0 (length (t !!! i))))
       (Tiles g) (seq 0 (length (Tiles g))))
    (LastMove g).

(** [HighestTile] returns the value of the highest tile on the grid. *)
Definition HighestTile (g : Grid) : Z :=
  foldl (fun highest a =>
    foldl (fun highest b =>
      if highest <? Val (cell (Tiles g) a b) then Val (cell (Tiles g) a b)
      else highest)
      highest (seq 0 gridWidth))
    0 (seq 0 gridHeight).

(** [isLoss] returns true if the grid is in a losing state (gridlocked).
    Each of the three loop nests returns false at its first hit. *)
Definition isLoss (g : Grid) : bool :=
  if existsb (fun i =>
       existsb (fun j => Val (cell (Tiles g) i j) =? emptyTile) (seq 0 gridWidth))
       (seq 0 gridHeight)
  then false
  else if existsb (fun i =>
       existsb (fun j =>
         Val (cell (Tiles g) i j) =? Val (cell (Tiles g) i (j + 1)%nat))
         (seq 0 (gridWidth - 1)%nat))
       (seq 0 gridHeight)
  then false
  else
    let t := transpose (Tiles g) in
    if existsb (fun i =>
         existsb (fun j => Val (cell t i j) =? Val (cell t i (j + 1)%nat))
           (seq 0 (gridWidth - 1)%nat))
         (seq 0 gridHeight)
    then false
    else true.

(** The outcome of a game: the constants [None], [Win] and [Lose]. *)
Inductive Outcome := NoOutcome | Win | Lose.

(** [Grid.Outcome] returns the current outcome of the grid. *)
Definition GridOutcome (g : Grid) : Outcome :=
  if isLoss g then Lose
  else if 2048 <=? HighestTile g then Win
  else NoOutcome.

(** ** Moving

    Modelled from the spec: [newIter], [hasNext] and [next] are declared in
    a file of the package that is not among the sources.  §4.1 has the cells
    scanned "in the direction of travel (iteration order reversed for
    Right/Down)": the iterator yields [0, 1, ..., length-1], or the same
    indices from the last to the first when [reverse] is set. *)
Definition iterOrder (length : nat) (reverse : bool) : list nat :=
  if reverse then rev (seq 0 length) else seq 0 length.

(** The body of the [for iter.hasNext()] loop of [moveStep], over the
    indices the iterator still has to yield. *)
Fixpoint moveStepFrom (rest : list nat) (reverse : bool) (g : list Tile) :
    M (list Tile * bool * Z) :=
  match rest with
  | [] => mret (g, false, 0)
  | i :: rest' =>
    (* Calculate the hypothetical next position for the tile *)
    let newPos := if reverse then Z.of_nat i + 1 else Z.of_nat i - 1 in
    (* Skip if new position is not valid (on the grid) *)
    if (newPos <? 0) || (Z.of_nat (length g) <=? newPos) then
      moveStepFrom rest' reverse g
    (* Skip if source tile is empty *)
    else if Val (g !!! i) =? emptyTile then
      moveStepFrom rest' reverse g
    else
      let np := Z.to_nat newPos in
      (* Combine if similar tile exists at destination and end turn *)
      let alreadyCombined := Cmb (g !!! i) || Cmb (g !!! np) in
      if (Val (g !!! np) =? Val (g !!! i)) && negb alreadyCombined then
        let g := alter (fun t => setVal (int_add (Val t) (Val (g !!! i))) t) np g in
        let g := alter (setCmb true) np g in
        u ← uuid_NewV7;
        let g := alter (setUUID u) np g in
        let valAfterCombine := Val (g !!! np) in
        let g := alter (setVal emptyTile) i g in
        u ← uuid_NewV7;
        let g := alter (setUUID u) i g in
        mret (g, true, valAfterCombine)
      else if negb (Val (g !!! np) =? emptyTile) then
        (* Move blocked by another tile *)
        moveStepFrom rest' reverse g
      (* Destination empty; move tile and end turn *)
      else if Val (g !!! np) =? emptyTile then
        let g := <[np := g !!! i]> g in
        u ← uuid_NewV7;
        let g := <[i := mkTile 0 false u]> g in
        mret (g, true, 0)
      else moveStepFrom rest' reverse g
  end.

(** [moveStep] executes one part of a move on a grid row.  Returns the row
    after the move, whether any tile moved, and the points gained. *)
Definition moveStep (g : list Tile) (dir : Direction) : M (list Tile * bool * Z) :=
  (* Iterate in the same direction as the move *)
  let reverse := (dir =? DirRight)%string || (dir =? DirDown)%string in
  moveStepFrom (iterOrder (length g) reverse) reverse g.

Definition vertical (dir : Direction) : bool :=
  (dir =? DirUp)%string || (dir =? DirDown)%string.

(** The local variables of [move] that live across rows. *)
Record moveVars := mkVars {
  v_tiles : list (list Tile);
  v_movedThisTurn : bool;
  v_moved : bool;
  v_pointsGained : Z
}.

(** The body of [for row := range gridHeight]. *)
Definition moveRow (dir : Direction) (row : nat) (v : moveVars) : M moveVars :=
  (* The moveStep function only operates on a row, so to move vertically
     we must transpose the grid before and after the move operation. *)
  let tiles := if vertical dir then transpose (v_tiles v) else v_tiles v in
  '(r, rowMoved, points) ← moveStep (tiles !!! row) dir;
  let tiles := <[row := r]> tiles in
  let pointsGained := if 0 <? points then points else v_pointsGained v in
  let tiles := if vertical dir then transpose tiles else tiles in
  if rowMoved : bool
  then mret (mkVars tiles true true pointsGained)
  else mret (mkVars tiles (v_movedThisTurn v) (v_moved v) pointsGained).

(** The loop "execute moves until grid can no longer move": one unit of
    fuel per pass over the rows. *)
Fixpoint moveLoop (fuel : nat) (dir : Direction) (tiles : list (list Tile))
    (moved : bool) (pointsGained : Z) : M (list (list Tile) * bool * Z) :=
  match fuel with
  | O => spinning
  | S fuel' =>
    v ← forEach (seq 0 gridHeight) (moveRow dir) (mkVars tiles false moved pointsGained);
    if negb (v_movedThisTurn v)
    then mret (v_tiles v, v_moved v, v_pointsGained v)
    else moveLoop fuel' dir (v_tiles v) (v_moved v) (v_pointsGained v)
  end.

(** [move] attempts to move all tiles in the specified direction, combining
    them if appropriate.  Returns the grid, whether any tiles were moved,
    and the added score. *)
Definition move (fuel : nat) (dir : Direction) (g : Grid) : M (Grid * bool * Z) :=
  (* Clear all of the "combined this turn" flags *)
  let tiles :=
    foldl (fun t i =>
      foldl (fun t j => alterCell (setCmb false) i j t) t (seq 0 gridHeight))
      (Tiles g) (seq 0 gridWidth) in
  '(tiles, moved, pointsGained) ← moveLoop fuel dir tiles false 0;
  mret (mkGrid tiles (LastMove g), moved, pointsGained).

(** The retry loop of [spawnTile]: draw again while the cell is taken. *)
Fixpoint spawnRetry (fuel : nat) (tiles : list (list Tile)) (x y : nat) : M (nat * nat) :=
  if negb (Val (cell tiles x y) =? emptyTile) then
    match fuel with
    | O => spinning
    | S fuel' =>
      x ← rand_Intn gridWidth; y ← rand_Intn gridHeight;
      spawnRetry fuel' tiles x y
    end
  else mret (x, y).

(** [spawnTile] spawns a single new tile in a random location on the grid. *)
Definition spawnTile (fuel : nat) (g : Grid) : M Grid :=
  x ← rand_Intn gridWidth; y ← rand_Intn gridHeight;
  '(x, y) ← spawnRetry fuel (Tiles g) x y;
  v ← newTileVal;
  let tiles := alterCell (setVal v) x y (Tiles g) in
  u ← uuid_NewV7;
  let tiles := alterCell (setUUID u) x y tiles in
  mret (mkGrid tiles (LastMove g)).

(** [Move] attempts to move in the specified direction, spawning a new tile
    if appropriate. *)
Definition Move (fuel : nat) (dir : Direction) (g : Grid) : M (Grid * Z) :=
  '(g, didMove, pointsGained) ← move fuel dir g;
  g ← (if didMove : bool then spawnTile fuel g else mret g);
  mret (mkGrid (Tiles g) dir, pointsGained).

(** The retry loop of [Reset]: draw the second position again while it
    equals the first. *)
Fixpoint resetRetry (fuel : nat) (tile1 tile2 : nat * nat) : M (nat * nat) :=
  if bool_decide (tile1 = tile2) then
    match fuel with
    | O => spinning
    | S fuel' =>
      x ← rand_Intn gridWidth; y ← rand_Intn gridHeight;
      resetRetry fuel' tile1 (x, y)
    end
  else mret tile2.

(** [Reset] resets the grid to a start-of-game state. *)
Definition Reset (fuel : nat) (g : Grid) : M Grid :=
  tiles ← NewTiles;
  x1 ← rand_Intn gridWidth; y1 ← rand_Intn gridHeight;
  x2 ← rand_Intn gridWidth; y2 ← rand_Intn gridHeight;
  tile2 ← resetRetry fuel (x1, y1) (x2, y2);
  v ← newTileVal;
  let tiles := alterCell (setVal v) x1 y1 tiles in
  v ← newTileVal;
  let tiles := alterCell (setVal v) tile2.1 tile2.2 tiles in
  mret (mkGrid tiles (LastMove g)).

(** [NewGrid] constructs a new grid. *)
Definition NewGrid (fuel : nat) : M Grid :=
  tiles ← NewTiles; Reset fuel (mkGrid tiles EmptyString).

(** * The message handlers of the multiplayer screen *)

(** Modelled from the spec: [backend.Game] is declared in a file that is
    not among the sources.  §3 gives a Game Session one grid, a score and
    an elapsed-time counter; the handlers below only copy it. *)
Record Game := mkGame {
  GameGrid : Grid;
  Score : Z;
  Elapsed : Z
}.

Definition bytes := list Byte.byte.

(** Go's [error] values, as the handlers build them: [fmt.Errorf] wrapping
    a cause with [%w], the "unsupported message type" error, and the errors
    that come out of the decoders and the transport. *)
Inductive error :=
| Wrap (context : string) (cause : error)
| UnsupportedType (tag : string)
| IncompatibleVersions (peer local : string)
| Failure (what : string).

(** Modelled from the spec: the package [comms] is not among the sources.
    §3 has a message carry a type out of PlayerData, GameData, EventData
    and RequestData (any other tag is an unknown type) and an opaque
    content decoded according to the type. *)
Inductive MsgType :=
| TypePlayerData
| TypeGameData
| TypeEventData
| TypeRequestData
| TypeUnknown (tag : string).

Inductive Event :=
| EventScreenLoaded
| EventHostStartGame
| EventUnknown (tag : string).

Record Message := mkMessage { Type_ : MsgType; Content : bytes }.
Record GameData := mkGameData { Game_ : Game }.
Record EventData := mkEventData { Event_ : Event }.
Record RequestData := mkRequestData { Request : MsgType }.
Record PlayerData := mkPlayerData { Version : string; Username : string }.

(** The name [%s] prints for a message type. *)
Definition typeName (t : MsgType) : string :=
  match t with
  | TypePlayerData => "PlayerData"
  | TypeGameData => "GameData"
  | TypeEventData => "EventData"
  | TypeRequestData => "RequestData"
  | TypeUnknown tag => tag
  end.

(** The encoders and decoders of [comms], whose code is not among the
    sources: any functions that return a value or an error. *)
Class Codec := {
  ParseMessage : bytes -> error + Message;
  ParseGameData : bytes -> error + GameData;
  ParseEventData : bytes -> error + EventData;
  ParseRequestData : bytes -> error + RequestData;
  ParsePlayerData : bytes -> error + PlayerData;
  SerialiseGameData : GameData -> error + bytes;
  SerialiseEventData : EventData -> error + bytes;
  SerialiseRequestData : RequestData -> error + bytes
}.

(** The transport ([servesyouright]): what was written so far and to whom
    ([None] is the host a client writes to), and which attempts fail. *)
Record Wire := mkWire {
  sent : list (option nat * bytes);
  attempts : nat;
  failing : nat -> option error
}.

(** [Write] and [WriteToClient]. *)
Definition wireWrite (dest : option nat) (b : bytes) (wire : Wire) :
    option error * Wire :=
  match failing wire (attempts wire) with
  | Some err => (Some err, mkWire (sent wire) (S (attempts wire)) (failing wire))
  | None =>
      (None, mkWire (sent wire ++ [(dest, b)]) (S (attempts wire)) (failing wire))
  end.

(** EITHER server or client will exist. *)
Inductive Conn :=
| server (clientIDs : list nat)
| client.

(** The fields of [MultiplayerScreen] the handlers read or write. *)
Record MultiplayerScreen := mkScreen {
  backend : Game;
  opponentBackend : Game;
  conn : Conn
}.

(** The fields of [MultiplayerJoinScreen] its handlers read or write.  The
    channel [hostIsReady] is the list of what was sent on it; the goroutine
    that animates the status text is a flag that it was started. *)
Record MultiplayerJoinScreen := mkJoin {
  opponentName : string;
  opponentStatus : string;
  hostIsReady : list bool;
  animating : bool
}.

Definition dquote : string := String (Ascii.ascii_of_nat 34) EmptyString.

Section Handlers.

Context {codec : Codec}.

(** [config.Version], a constant of a package that is not among the
    sources. *)
Variable configVersion : string.

(** [sendToOpponent] sends bytes to the opponent. *)
Fixpoint writeToClients (ids : list nat) (b : bytes) (wire : Wire) :
    option error * Wire :=
  match ids with
  | [] => (None, wire)
  | id :: ids' =>
      match wireWrite (Some id) b wire with
      | (Some err, wire') =>
          (Some (Wrap "failed to send message to server" err), wire')
      | (None, wire') => writeToClients ids' b wire'
      end
  end.

Definition sendToOpponent (s : MultiplayerScreen) (b : bytes) (wire : Wire) :
    option error * Wire :=
  match conn s with
  | server ids => writeToClients ids b wire
  | client =>
      match wireWrite None b wire with
      | (Some err, wire') =>
          (Some (Wrap "failed to send message to client" err), wire')
      | (None, wire') => (None, wire')
      end
  end.

(** [sendGameData] sends the local game state to the opponent. *)
Definition sendGameData (s : MultiplayerScreen) (wire : Wire) : option error * Wire :=
  match SerialiseGameData (mkGameData (backend s)) with
  | inl err => (Some (Wrap "failed to serialise game data" err), wire)
  | inr msg => sendToOpponent s msg wire
  end.

(** [handleGameData] handles incoming game data from the opponent. *)
Definition handleGameData (data : GameData) (s : MultiplayerScreen) :
    option error * MultiplayerScreen :=
  (None, mkScreen (backend s) (Game_ data) (conn s)).

(** [sendScreenLoadedEvent] sends the screen loaded event to the opponent. *)
Definition sendScreenLoadedEvent (s : MultiplayerScreen) (wire : Wire) :
    option error * Wire :=
  match SerialiseEventData (mkEventData EventScreenLoaded) with
  | inl err => (Some (Wrap "failed to serialise event data" err), wire)
  | inr msg => sendToOpponent s msg wire
  end.

(** [requestOpponentGameData] sends a request for the opponent to send
    their game data. *)
Definition requestOpponentGameData (s : MultiplayerScreen) (wire : Wire) :
    option error * Wire :=
  match SerialiseRequestData (mkRequestData TypeGameData) with
  | inl err => (Some (Wrap "failed to serialise request data" err), wire)
  | inr msg =>
      match sendToOpponent s msg wire with
      | (Some err, wire') => (Some (Wrap "failed to send data to opponent" err), wire')
      | (None, wire') => (None, wire')
      end
  end.

(** [handleEventData] handles incoming event data from the opponent. *)
Definition handleEventData (data : EventData) (s : MultiplayerScreen) (wire : Wire) :
    option error * Wire :=
  match Event_ data with
  | EventScreenLoaded =>
      (* Send game data to opponent *)
      match sendGameData s wire with
      | (Some err, wire') => (Some (Wrap "failed to send game data" err), wire')
      | (None, wire') =>
          (* Request for opponent to send their game data *)
          match requestOpponentGameData s wire' with
          | (Some err, wire'') =>
              (Some (Wrap "failed to request opponent's game data" err), wire'')
          | (None, wire'') => (None, wire'')
          end
      end
  | _ => (None, wire)
  end.

(** [handleRequest] handles an incoming request for data. *)
Definition handleRequest (data : RequestData) (s : MultiplayerScreen) (wire : Wire) :
    option error * Wire :=
  match Request data with
  | TypeGameData =>
      match sendGameData s wire with
      | (Some err, wire') => (Some (Wrap "failed to send game data" err), wire')
      | (None, wire') => (None, wire')
      end
  | _ => (None, wire)
  end.

(** [handleOpponentData] handles data from the opponent. *)
Definition handleOpponentData (data : bytes) (s : MultiplayerScreen) (wire : Wire) :
    option error * MultiplayerScreen * Wire :=
  match ParseMessage data with
  | inl err => (Some (Wrap "failed to parse message" err), s, wire)
  | inr msg =>
      match Type_ msg with
      | TypeGameData =>
          match ParseGameData (Content msg) with
          | inl err => (Some (Wrap "failed to parse game data" err), s, wire)
          | inr gameData =>
              let '(r, s') := handleGameData gameData s in (r, s', wire)
          end
      | TypeEventData =>
          match ParseEventData (Content msg) with
          | inl err => (Some (Wrap "failed to parse event data" err), s, wire)
          | inr eventData =>
              let '(r, wire') := handleEventData eventData s wire in (r, s, wire')
          end
      | TypeRequestData =>
          match ParseRequestData (Content msg) with
          | inl err => (Some (Wrap "failed to parse request data" err), s, wire)
          | inr requestData =>
              let '(r, wire') := handleRequest requestData s wire in (r, s, wire')
          end
      | t => (Some (UnsupportedType (typeName t)), s, wire)
      end
  end.

(** The callback [Enter] registers on the server or the client: an error of
    the handler is logged, and that is all. *)
Definition onOpponentData (data : bytes) (s : MultiplayerScreen) (wire : Wire)
    (log : list (string * error)) :
    MultiplayerScreen * Wire * list (string * error) :=
  match handleOpponentData data s wire with
  | (Some err, s', wire') =>
      (s', wire',
       log ++ [(match conn s with
                | server _ => "Failed to handle opponent data as server"
                | client => "Failed to handle opponent data as client"
                end, err)])
  | (None, s', wire') => (s', wire', log)
  end.

(** [MultiplayerJoinScreen.handleEventData] handles incoming event data. *)
Definition join_handleEventData (data : EventData) (s : MultiplayerJoinScreen) :
    option error * MultiplayerJoinScreen :=
  match Event_ data with
  | EventHostStartGame =>
      (None, mkJoin (opponentName s) (opponentStatus s) (hostIsReady s ++ [true])
               (animating s))
  | _ => (None, s)
  end.

(** [MultiplayerJoinScreen.handlePlayerData] handles incoming player data. *)
Definition join_handlePlayerData (data : PlayerData) (s : MultiplayerJoinScreen) :
    option error * MultiplayerJoinScreen :=
  (* Make sure versions are compatible *)
  if negb (Version data =? configVersion)%string then
    (Some (IncompatibleVersions (Version data) configVersion), s)
  else
    (* Animate status message *)
    let msg := ("Waiting for " ++ dquote ++ Username data ++ dquote
                ++ " to start the game")%string in
    (None, mkJoin (Username data) msg (hostIsReady s) true).

(** [handleServerData] handles all data received from the server. *)
Definition handleServerData (data : bytes) (s : MultiplayerJoinScreen) :
    option error * MultiplayerJoinScreen :=
  match ParseMessage data with
  | inl err => (Some (Wrap "failed to parse message" err), s)
  | inr msg =>
      match Type_ msg with
      | TypeEventData =>
          match ParseEventData (Content msg) with
          | inl err => (Some (Wrap "failed to parse event data" err), s)
          | inr eventData => join_handleEventData eventData s
          end
      | TypePlayerData =>
          match ParsePlayerData (Content msg) with
          | inl err => (Some (Wrap "failed to parse player data" err), s)
          | inr playerData => join_handlePlayerData playerData s
          end
      | t => (Some (UnsupportedType (typeName t)), s)
      end
  end.

(** The callback [joinGame] registers on the client. *)
Definition onServerData (data : bytes) (s : MultiplayerJoinScreen)
    (log : list (string * error)) : MultiplayerJoinScreen * list (string * error) :=
  match handleServerData data s with
  | (Some err, s') =>
      (s', log ++ [("Join screen failed to handle data from server:", err)])
  | (None, s') => (s', log)
  end.

End Handlers.

(** * The vocabulary of the properties *)

(** A grid given by its values, for the examples: no flag set, the cell of
    row [i] and column [j] identified by [4 i + j + 1]. *)
Definition tilesOf (vals : list (list Z)) : list (list Tile) :=
  imap (fun i r => imap (fun j v => mkTile v false (4 * i + j + 1)%nat) r) vals.

Definition valsOf (t : list (list Tile)) : list (list Z) := map (map Val) t.

(** ** What a step of [moveStep] does

    [moveStep] stops at the first tile that can combine or slide.  [Act] names
    that decision and [perform] its effect on the row; [moveStep_plan] below
    shows that [moveStep] is the one followed by the other. *)

Inductive Act :=
| Stay
| Combine (i newPos : nat)
| Slide (i newPos : nat).

Fixpoint planFrom (rest : list nat) (reverse : bool) (g : list Tile) : Act :=
  match rest with
  | [] => Stay
  | i :: rest' =>
    let newPos := if reverse then Z.of_nat i + 1 else Z.of_nat i - 1 in
    let np := Z.to_nat newPos in
    if (newPos <? 0) || (Z.of_nat (length g) <=? newPos) then planFrom rest' reverse g
    else if Val (g !!! i) =? emptyTile then planFrom rest' reverse g
    else if (Val (g !!! np) =? Val (g !!! i)) && negb (Cmb (g !!! i) || Cmb (g !!! np))
    then Combine i np
    else if negb (Val (g !!! np) =? emptyTile) then planFrom rest' reverse g
    else Slide i np
  end.

Definition isReverse (dir : Direction) : bool :=
  (dir =? DirRight)%string || (dir =? DirDown)%string.

Definition plan (g : list Tile) (dir : Direction) : Act :=
  planFrom (iterOrder (length g) (isReverse dir)) (isReverse dir) g.

(** The world after [n] more identifiers were issued. *)
Definition issue (n : nat) (w : World) : World :=
  mkWorld (stream w) (drawn w) (n + issued w).

Definition combinedRow (g : list Tile) (i np : nat) (w : World) : list Tile :=
  <[i := mkTile 0 (Cmb (g !!! i)) (S (S (issued w)))]>
    (<[np := mkTile (int_add (Val (g !!! np)) (Val (g !!! i))) true (S (issued w))]> g).

Definition slidRow (g : list Tile) (i np : nat) (w : World) : list Tile :=
  <[i := mkTile 0 false (S (issued w))]> (<[np := g !!! i]> g).

Definition perform (a : Act) (g : list Tile) (w : World) : list Tile * bool * Z * World :=
  match a with
  | Stay => (g, false, 0, w)
  | Combine i np =>
      (combinedRow g i np w, true, int_add (Val (g !!! np)) (Val (g !!! i)), issue 2 w)
  | Slide i np => (slidRow g i np w, true, 0, issue 1 w)
  end.

(** The cell a tile at [i] would move to. *)
Definition target (reverse : bool) (g : list Tile) (i np : nat) : Prop :=
  Z.of_nat np = (if reverse then Z.of_nat i + 1 else Z.of_nat i - 1)
  /\ (i < length g)%nat /\ (np < length g)%nat.

Definition canCombine (reverse : bool) (g : list Tile) (i np : nat) : Prop :=
  target reverse g i np /\ Val (g !!! i) <> 0 /\ Val (g !!! np) = Val (g !!! i)
  /\ Cmb (g !!! i) = false /\ Cmb (g !!! np) = false.

Definition canSlide (reverse : bool) (g : list Tile) (i np : nat) : Prop :=
  target reverse g i np /\ Val (g !!! i) <> 0 /\ Val (g !!! np) = 0.

(** A tile that can neither slide nor combine. *)
Definition stuck (reverse : bool) (g : list Tile) (i : nat) : Prop :=
  forall np, target reverse g i np -> Val (g !!! i) <> 0 ->
    Val (g !!! np) <> 0 /\
    (Val (g !!! np) = Val (g !!! i) -> Cmb (g !!! i) || Cmb (g !!! np) = true).

(** The loop at the head of [move] clears every flag, as [ClearCmbFlags]. *)
Definition clearedTiles (t : list (list Tile)) : list (list Tile) :=
  foldl (fun t i =>
    foldl (fun t j => alterCell (setCmb false) i j t) t (seq 0 gridHeight))
    t (seq 0 gridWidth).

(** The grid as [moveStep] sees it: transposed for the vertical moves. *)
Definition orient (dir : Direction) (t : list (list Tile)) : list (list Tile) :=
  if vertical dir then transpose t else t.

(** ** Sums over the cells

    [wsum f k g] adds [f (k + idx) g[idx]] over a row and [total f t] adds
    the rows of a grid; the sum of the values, the number of empty cells
    and the distance still to travel are instances. *)

Fixpoint wsum (f : nat -> Tile -> Z) (k : nat) (g : list Tile) : Z :=
  match g with
  | [] => 0
  | t :: g' => f k t + wsum f (S k) g'
  end.

Definition total (f : nat -> Tile -> Z) (t : list (list Tile)) : Z :=
  foldr (fun r acc => wsum f 0 r + acc) 0 t.

(** The sum of the tile values of a grid. *)
Definition valueOf : nat -> Tile -> Z := fun _ t => Val t.
Definition sumValues (t : list (list Tile)) : Z := total valueOf t.

(** The number of empty cells of a grid. *)
Definition emptyOf : nat -> Tile -> Z := fun _ t => if Val t =? 0 then 1 else 0.
Definition numEmpty (t : list (list Tile)) : Z := total emptyOf t.

(** How far the tiles of a row are from the wall they move to. *)
Definition distOf (reverse : bool) : nat -> Tile -> Z := fun idx t =>
  if Val t =? 0 then 0
  else if reverse then Z.of_nat gridWidth - 1 - Z.of_nat idx else Z.of_nat idx.

Definition potential (dir : Direction) (t : list (list Tile)) : Z :=
  total (distOf (isReverse dir)) (orient dir t).

(** ** The merges of a call, in the order they happen

    A record of each combination [move] performs: the identifiers of the
    tile that moved and of the tile it met, the identifier given to the
    result, and its value.  The functions follow the loops of [move]. *)

Record Merged := mkMerged {
  src_id : uuid_UUID;
  dst_id : uuid_UUID;
  new_id : uuid_UUID;
  new_val : Z
}.

Definition rowMerges (dir : Direction) (row : nat) (tiles : list (list Tile))
    (w : World) : list Merged :=
  let g := orient dir tiles !!! row in
  match plan g dir with
  | Combine i np =>
      [mkMerged (UUID (g !!! i)) (UUID (g !!! np)) (S (issued w))
         (int_add (Val (g !!! np)) (Val (g !!! i)))]
  | _ => []
  end.

Fixpoint passMerges (dir : Direction) (rows : list nat) (v : moveVars)
    (w : World) : list Merged :=
  match rows with
  | [] => []
  | row :: rows' =>
      rowMerges dir row (v_tiles v) w ++
      match moveRow dir row v w with
      | Some (v', w') => passMerges dir rows' v' w'
      | None => []
      end
  end.

Fixpoint loopMerges (fuel : nat) (dir : Direction) (tiles : list (list Tile))
    (moved : bool) (pointsGained : Z) (w : World) : list Merged :=
  match fuel with
  | O => []
  | S fuel' =>
      let v0 := mkVars tiles false moved pointsGained in
      passMerges dir (seq 0 gridHeight) v0 w ++
      match forEach (seq 0 gridHeight) (moveRow dir) v0 w with
      | Some (v, w') =>
          if negb (v_movedThisTurn v) then []
          else loopMerges fuel' dir (v_tiles v) (v_moved v) (v_pointsGained v) w'
      | None => []
      end
  end.

(** The merges of [move fuel dir g] run from the world [w]. *)
Definition merges (fuel : nat) (dir : Direction) (g : Grid) (w : World) : list Merged :=
  loopMerges fuel dir (clearedTiles (Tiles g)) false 0 w.

(** An invariant of the local variables, the world and the merges so far. *)
Definition Inv := list Merged -> list (list Tile) -> bool -> Z -> World -> Prop.

Definition holds (P : Inv) (log : list Merged) (v : moveVars) (w : World) : Prop :=
  P log (v_tiles v) (v_moved v) (v_pointsGained v) w.

Definition preserved (P : Inv) (dir : Direction) : Prop :=
  forall row log v w v' w',
    (row < gridHeight)%nat -> wf (v_tiles v) -> holds P log v w ->
    moveRow dir row v w = Some (v', w') ->
    holds P (log ++ rowMerges dir row (v_tiles v) w) v' w'.

(** The number of passes [move] can need on a 4 by 4 grid. *)
Definition enoughFuel : nat := 25.

(** ** Properties that hold in every cell *)

Definition everywhere (Q : Tile -> Prop) (t : list (list Tile)) : Prop :=
  forall i j, (i < gridHeight)%nat -> (j < gridWidth)%nat -> Q (cell t i j).

(** The values [move] can combine without leaving the range of [int]: a
    tile that was not combined in this call is below [2^62]. *)
Definition okTile (t : Tile) : Prop :=
  0 <= Val t /\ Val t < (if Cmb t then 2 ^ 63 else 2 ^ 62).

Definition valid (t : list (list Tile)) : Prop := everywhere okTile t.

(** The grids the theorems about values speak of: every value is in
    [[0, 2^62)].  A game started by [Reset] never leaves this range. *)
Definition inRange (t : list (list Tile)) : Prop :=
  Forall (Forall (fun x => 0 <= Val x < 2 ^ 62)) t.

(** ** Invariants of the loop of [move] *)

(** Empty cells never get fewer, and there is one once a tile has moved. *)
Definition keepsEmpty (e0 : Z) : Inv := fun _ tiles moved _ _ =>
  e0 <= numEmpty tiles /\ (moved = true -> 1 <= numEmpty tiles).

(** As long as nothing moved, nothing changed. *)
Definition untouched (t0 : list (list Tile)) (w0 : World) : Inv :=
  fun log tiles moved pts w =>
    moved = false -> tiles = t0 /\ w = w0 /\ pts = 0 /\ log = [].

(** The values stay in range and their sum is kept. *)
Definition keepsSum (s0 : Z) : Inv := fun _ tiles _ _ _ =>
  valid tiles /\ sumValues tiles = s0.

(** Whatever the values, the sum is kept as [int] computes it: up to a
    multiple of [2^64]. *)
Definition keepsSumMod (s0 : Z) : Inv := fun _ tiles _ _ _ =>
  exists k, sumValues tiles = s0 + k * 2 ^ 64.

(** The value of the last merge of a log, [0] when there is none. *)
Definition lastMerge (log : list Merged) : Z :=
  match last log with
  | Some m => new_val m
  | None => 0
  end.

Definition pointsInv : Inv := fun log tiles _ pts _ =>
  valid tiles /\ pts = lastMerge log /\ Forall (fun m => 0 < new_val m) log.

(** The outputs of the generator are not touched by [move]. *)
Definition sameDraws (w0 : World) : Inv := fun _ _ _ _ w =>
  stream w = stream w0 /\ drawn w = drawn w0.

(** ** Drawing a cell *)

(** The world after [n] more outputs of the generator were consumed. *)
Definition advance (n : nat) (w : World) : World :=
  mkWorld (stream w) (n + drawn w) (issued w).

(** The [k]-th pair of coordinates the generator yields from the cursor. *)
Definition coordAt (w : World) (k : nat) : nat * nat :=
  (Z.to_nat (stream w (drawn w + 2 * k)%nat `mod` Z.of_nat gridWidth),
   Z.to_nat (stream w (drawn w + 2 * k + 1)%nat `mod` Z.of_nat gridHeight)).

(** A generator that yields every cell from its cursor on; [math/rand]
    draws the coordinates uniformly, so every cell keeps coming up. *)
Definition reachesEveryCell (w : World) : Prop :=
  forall x y, (x < gridWidth)%nat -> (y < gridHeight)%nat ->
    exists k, coordAt w k = (x, y).

(** The tile [spawnTile] and [Reset] leave in a cell. *)
Definition isEmptyAt (tiles : list (list Tile)) (p : nat * nat) : Prop :=
  Val (cell tiles p.1 p.2) = 0.

(** ** Fuel

    A loop that returned with some fuel returns the same with more. *)

Definition both (P Q : Inv) : Inv := fun log tiles moved pts w =>
  P log tiles moved pts w /\ Q log tiles moved pts w.

(** ** Resetting *)

(** The tiles [NewTiles] makes when [n] identifiers were issued before. *)
Definition newTilesAt (n : nat) : list (list Tile) :=
  imap (fun i r => imap (fun j _ => mkTile 0 false (n + 4 * i + j + 1)%nat) r) zeroTiles.

(** The [k]-th position [Reset] tries for its second tile. *)
Definition attempt (tile2 : nat * nat) (w : World) (k : nat) : nat * nat :=
  match k with
  | O => tile2
  | S j => coordAt w j
  end.

(** The unit-interval reading of the next output, as [rand.Float64]. *)
Definition unitDraw (w : World) : Q :=
  Qmake (stream w (drawn w) `mod` 2 ^ 53) (2 ^ 53)%positive.

(** ** Examples used below *)

(** The row [2, 2, 4, 0] above three empty rows. *)
Definition rowGrid : Grid :=
  mkGrid (tilesOf [[2; 2; 4; 0]; [0; 0; 0; 0]; [0; 0; 0; 0]; [0; 0; 0; 0]]) EmptyString.

(** The row [2, 2, 2, 2] above three empty rows. *)
Definition twosGrid : Grid :=
  mkGrid (tilesOf [[2; 2; 2; 2]; [0; 0; 0; 0]; [0; 0; 0; 0]; [0; 0; 0; 0]]) EmptyString.

(** A generator that goes through the cells row by row, again and again. *)
Definition cycling : nat -> Z := fun n =>
  let k := Z.of_nat n / 2 in
  if Z.even (Z.of_nat n) then (k / 4) `mod` 4 else k `mod` 4.

Definition cyclingWorld : World := mkWorld cycling 0 16.

(** ** The sum of the values *)

(** The distance the tiles still have to travel went down once a tile has
    moved. *)
Definition closer (dir : Direction) (p0 : Z) : Inv := fun _ tiles moved _ _ =>
  potential dir tiles <= p0 /\ (moved = true -> potential dir tiles < p0).

(** [g'] is [g1] with one more tile: the empty cell [p] got the value [v]. *)
Definition spawnedAt (g1 g' : list (list Tile)) (p : nat * nat) (v : Z) : Prop :=
  (p.1 < gridWidth)%nat /\ (p.2 < gridHeight)%nat /\
  Val (cell g1 p.1 p.2) = 0 /\ Val (cell g' p.1 p.2) = v /\
  forall i j, (i, j) <> p -> cell g' i j = cell g1 i j.

(** ** The points of a move *)

(** The sum of the values made by the merges of a log. *)
Definition sumMerges (log : list Merged) : Z :=
  foldr (fun m acc => new_val m + acc) 0 log.

(** ** A blocked move *)

(** The cell next to [(i, j)] in the direction of travel; position [(0, 0)]
    is the top left square and the first index is the row.  [move] treats
    any string that is none of the four directions as [DirLeft]. *)
Definition neighbour (dir : Direction) (i j : nat) : option (nat * nat) :=
  if (dir =? DirUp)%string then
    match i with O => None | S i' => Some (i', j) end
  else if (dir =? DirDown)%string then
    if (S i <? gridHeight)%nat then Some (S i, j) else None
  else if (dir =? DirRight)%string then
    if (S j <? gridWidth)%nat then Some (i, S j) else None
  else
    match j with O => None | S j' => Some (i, j') end.

(** No tile can slide or merge: every tile that has a neighbour in the
    direction of travel finds it taken by a tile of another value. *)
Definition blocked (dir : Direction) (t : list (list Tile)) : bool :=
  forallb (fun i =>
    forallb (fun j =>
      match neighbour dir i j with
      | None => true
      | Some (i', j') =>
          (Val (cell t i j) =? 0)
          || (negb (Val (cell t i' j') =? 0)
              && negb (Val (cell t i' j') =? Val (cell t i j)))
      end) (seq 0 gridWidth)) (seq 0 gridHeight).

(** A grid [Move] reaches in one call: the pair [2, 2] merged to a 4, which
    keeps its flag, and a 2 spawned below it.  The move to the left is
    blocked on it. *)
Definition pairGrid : Grid :=
  mkGrid (tilesOf [[2; 2; 0; 0]; [0; 0; 0; 0]; [0; 0; 0; 0]; [0; 0; 0; 0]]) EmptyString.

Definition belowWorld : World :=
  mkWorld (fun n => if (n =? 0)%nat then 1 else 0) 0 16.

(** The tiles [4] over [2] in the left column: blocked to the left. *)
Definition columnGrid : Grid :=
  mkGrid (tilesOf [[4; 0; 0; 0]; [2; 0; 0; 0]; [0; 0; 0; 0]; [0; 0; 0; 0]]) "up".

(** ** The outcome of a board *)

(** Every cell holds a tile. *)
Definition full (t : list (list Tile)) : Prop :=
  forall i j, (i < gridHeight)%nat -> (j < gridWidth)%nat -> Val (cell t i j) <> 0.

(** No two cells next to each other, in a row or in a column, hold the same
    value. *)
Definition noEqualNeighbours (t : list (list Tile)) : Prop :=
  forall i j, (i < gridHeight)%nat -> (j < gridWidth)%nat ->
    ((S j < gridWidth)%nat -> Val (cell t i j) <> Val (cell t i (S j))) /\
    ((S i < gridHeight)%nat -> Val (cell t i j) <> Val (cell t (S i) j)).

Definition gridlocked (t : list (list Tile)) : Prop :=
  full t /\ noEqualNeighbours t.

(** Some tile is worth at least [n]. *)
Definition hasTile (n : Z) (t : list (list Tile)) : Prop :=
  exists i j, (i < gridHeight)%nat /\ (j < gridWidth)%nat /\ n <= Val (cell t i j).

(** A full board without equal neighbours that holds a 2048. *)
Definition lockedGrid : Grid :=
  mkGrid (tilesOf [[2048; 2; 4; 2]; [2; 4; 2; 4]; [4; 2; 4; 2]; [2; 4; 2; 4]]) EmptyString.

(** A board with a 2048 and room to move. *)
Definition wonGrid : Grid :=
  mkGrid (tilesOf [[2048; 2; 0; 0]; [0; 0; 0; 0]; [0; 0; 0; 0]; [0; 0; 0; 0]]) EmptyString.

(** ** Merging once

    Tiles are told apart by their identifiers: a slide carries the
    identifier along, a merge gives a fresh one to the result. *)

(** The identifiers that took part in the merges of a log: for each merge
    the tile that moved, the tile it met and the tile they made. *)
Fixpoint idsOf (log : list Merged) : list uuid_UUID :=
  match log with
  | [] => []
  | m :: log' => src_id m :: dst_id m :: new_id m :: idsOf log'
  end.

(** No two cells hold the same identifier. *)
Definition distinctIds (t : list (list Tile)) : Prop :=
  forall i j i' j',
    (i < gridHeight)%nat -> (j < gridWidth)%nat ->
    (i' < gridHeight)%nat -> (j' < gridWidth)%nat ->
    UUID (cell t i j) = UUID (cell t i' j') -> i = i' /\ j = j'.

(** Every identifier on the grid was issued by [uuid.NewV7] before. *)
Definition issuedIds (w : World) (t : list (list Tile)) : Prop :=
  everywhere (fun x => (UUID x <= issued w)%nat) t.

(** A tile whose identifier took part in a merge carries the flag. *)
Definition cellOk (log : list Merged) (w : World) (x : Tile) : Prop :=
  (UUID x <= issued w)%nat /\ (UUID x ∈ idsOf log -> Cmb x = true).

Definition onceInv (dir : Direction) : Inv := fun log tiles _ _ w =>
  everywhere (cellOk log w) (orient dir tiles) /\
  distinctIds (orient dir tiles) /\
  Forall (fun u => (u <= issued w)%nat) (idsOf log) /\
  NoDup (idsOf log).

(** ** The seeds of [Reset] *)

Definition inGrid (p : nat * nat) : Prop :=
  (p.1 < gridWidth)%nat /\ (p.2 < gridHeight)%nat.

(** ** What the handlers answer and what they drop *)

(** The peers [sendToOpponent] writes to. *)
Definition peers (c : Conn) : list (option nat) :=
  match c with
  | server ids => map Some ids
  | client => [None]
  end.

(** A payload the handler cannot use, and the error it is due: the message
    does not decode, its type is none of GameData, EventData and
    RequestData, or its content does not decode as its type says. *)
Inductive undecodable {codec : Codec} (data : bytes) : error -> Prop :=
| bad_message err :
    ParseMessage data = inl err ->
    undecodable data (Wrap "failed to parse message" err)
| bad_type msg :
    ParseMessage data = inr msg ->
    Type_ msg <> TypeGameData -> Type_ msg <> TypeEventData ->
    Type_ msg <> TypeRequestData ->
    undecodable data (UnsupportedType (typeName (Type_ msg)))
| bad_game msg err :
    ParseMessage data = inr msg -> Type_ msg = TypeGameData ->
    ParseGameData (Content msg) = inl err ->
    undecodable data (Wrap "failed to parse game data" err)
| bad_event msg err :
    ParseMessage data = inr msg -> Type_ msg = TypeEventData ->
    ParseEventData (Content msg) = inl err ->
    undecodable data (Wrap "failed to parse event data" err)
| bad_request msg err :
    ParseMessage data = inr msg -> Type_ msg = TypeRequestData ->
    ParseRequestData (Content msg) = inl err ->
    undecodable data (Wrap "failed to parse request data" err).

(** The same for the join screen, which knows EventData and PlayerData. *)
Inductive undecodableByGuest {codec : Codec} (data : bytes) : error -> Prop :=
| guest_bad_message err :
    ParseMessage data = inl err ->
    undecodableByGuest data (Wrap "failed to parse message" err)
| guest_bad_type msg :
    ParseMessage data = inr msg ->
    Type_ msg <> TypeEventData -> Type_ msg <> TypePlayerData ->
    undecodableByGuest data (UnsupportedType (typeName (Type_ msg)))
| guest_bad_event msg err :
    ParseMessage data = inr msg -> Type_ msg = TypeEventData ->
    ParseEventData (Content msg) = inl err ->
    undecodableByGuest data (Wrap "failed to parse event data" err)
| guest_bad_player msg err :
    ParseMessage data = inr msg -> Type_ msg = TypePlayerData ->
    ParsePlayerData (Content msg) = inl err ->
    undecodableByGuest data (Wrap "failed to parse player data" err).

(** A codec for the examples: the first byte is the type, the rest the
    content; an event is one byte, a request the byte of the type asked
    for; a game travels as no bytes at all and is read back as an empty
    board. *)
Definition toyType (b : Byte.byte) : MsgType :=
  match b with
  | Byte.x00 => TypePlayerData
  | Byte.x01 => TypeGameData
  | Byte.x02 => TypeEventData
  | Byte.x03 => TypeRequestData
  | _ => TypeUnknown "?"
  end.

Definition toyGame : Game := mkGame (mkGrid zeroTiles EmptyString) 0 0.

#[local] Instance toyCodec : Codec := {|
  ParseMessage b :=
    match b with
    | [] => inl (Failure "empty message")
    | t :: c => inr (mkMessage (toyType t) c)
    end;
  ParseGameData c :=
    match c with
    | [] => inr (mkGameData toyGame)
    | _ => inl (Failure "bad game")
    end;
  ParseEventData c :=
    match c with
    | [Byte.x00] => inr (mkEventData EventScreenLoaded)
    | [Byte.x01] => inr (mkEventData EventHostStartGame)
    | _ => inl (Failure "bad event")
    end;
  ParseRequestData c :=
    match c with
    | [t] => inr (mkRequestData (toyType t))
    | _ => inl (Failure "bad request")
    end;
  ParsePlayerData c :=
    match c with
    | [] => inr (mkPlayerData "1.0" "peer")
    | _ => inl (Failure "bad player")
    end;
  SerialiseGameData _ := inr [Byte.x01];
  SerialiseEventData _ := inr [Byte.x02; Byte.x00];
  SerialiseRequestData _ := inr [Byte.x03; Byte.x01]
|}.

Definition quietWire : Wire := mkWire [] 0 (fun _ => None).
Definition guestScreen : MultiplayerScreen := mkScreen toyGame toyGame client.
Definition hostScreen : MultiplayerScreen := mkScreen toyGame toyGame (server [7%nat]).
Definition joinScreen : MultiplayerJoinScreen := mkJoin EmptyString EmptyString [] false.

(** * Lemmas and the properties of the specification *)

(** ** What a step of [moveStep] does *)

Section RowStep.

Lemma alter_insert_total (f : Tile -> Tile) (i : nat) (g : list Tile) :
  alter f i g = <[i := f (g !!! i)]> g.
Proof.
  revert i; induction g as [|t g IH]; intros [|i]; simpl; try reflexivity.
  f_equal; apply IH.
Qed.

Lemma moveStepFrom_plan rest reverse g w :
  Forall (fun i => (i < length g)%nat) rest ->
  moveStepFrom rest reverse g w =
    Some (perform (planFrom rest reverse g) g w).
Proof.
  induction 1 as [|i rest Hi _ IH]; [reflexivity|].
  cbn [moveStepFrom planFrom].
  set (newPos := if reverse then Z.of_nat i + 1 else Z.of_nat i - 1).
  destruct ((newPos <? 0) || (Z.of_nat (length g) <=? newPos)) eqn:Hrange;
    [exact IH|].
  apply orb_false_iff in Hrange as [Hlo%Z.ltb_ge Hhi%Z.leb_gt].
  destruct (Val (g !!! i) =? emptyTile) eqn:Hv; [exact IH|].
  set (np := Z.to_nat newPos).
  assert (Hnp : (np < length g)%nat) by (subst np; lia).
  assert (Hne : np <> i) by (subst np newPos; destruct reverse; lia).
  destruct ((Val (g !!! np) =? Val (g !!! i))
            && negb (Cmb (g !!! i) || Cmb (g !!! np))) eqn:Hc.
  - unfold perform, combinedRow, issue, mbind, M_bind, uuid_NewV7, mret, M_ret.
    cbn [issued stream drawn].
    rewrite !alter_insert_total.
    repeat (rewrite ?list_lookup_total_insert_eq, ?list_lookup_total_insert_ne,
              ?length_insert by (rewrite ?length_insert; lia)).
    rewrite !list_insert_insert_eq.
    reflexivity.
  - destruct (Val (g !!! np) =? emptyTile) eqn:Hd; cbn [negb]; [|exact IH].
    reflexivity.
Qed.

Lemma iterOrder_range n reverse :
  Forall (fun i => (i < n)%nat) (iterOrder n reverse).
Proof.
  apply Forall_forall; intros i Hi; unfold iterOrder in Hi.
  destruct reverse; [apply list_elem_of_In, in_rev, list_elem_of_In in Hi|];
    apply elem_of_seq in Hi; lia.
Qed.

Lemma moveStep_plan g dir w :
  moveStep g dir w = Some (perform (plan g dir) g w).
Proof. apply moveStepFrom_plan, iterOrder_range. Qed.

End RowStep.

Section Plan.

Ltac plan_head reverse i g :=
  cbn [planFrom];
  set (newPos := if reverse : bool then Z.of_nat i + 1 else Z.of_nat i - 1) in *;
  destruct ((newPos <? 0) || (Z.of_nat (length g) <=? newPos)) eqn:Hrange;
  [|apply orb_false_iff in Hrange as [Hlo%Z.ltb_ge Hhi%Z.leb_gt];
    destruct (Val (g !!! i) =? emptyTile) eqn:Hv;
    [|apply Z.eqb_neq in Hv;
      destruct ((Val (g !!! Z.to_nat newPos) =? Val (g !!! i))
                && negb (Cmb (g !!! i) || Cmb (g !!! Z.to_nat newPos))) eqn:Hc;
      [|destruct (Val (g !!! Z.to_nat newPos) =? emptyTile) eqn:Hd; cbn [negb]]]].

Lemma target_to_nat (reverse : bool) (g : list Tile) (i : nat) :
  let newPos := if reverse then Z.of_nat i + 1 else Z.of_nat i - 1 in
  (i < length g)%nat -> 0 <= newPos -> newPos < Z.of_nat (length g) ->
  target reverse g i (Z.to_nat newPos).
Proof. intros newPos Hi Hlo Hhi; unfold target; subst newPos; destruct reverse; lia. Qed.

Lemma planFrom_Combine rest reverse g i np :
  Forall (fun i => (i < length g)%nat) rest ->
  planFrom rest reverse g = Combine i np ->
  i ∈ rest /\ canCombine reverse g i np.
Proof.
  induction 1 as [|j rest Hj _ IH]; [discriminate|].
  plan_head reverse j g; intros Hp;
    try (destruct (IH Hp) as [? ?]; split; [right|]; assumption);
    try discriminate.
  injection Hp as <- <-.
  apply andb_true_iff in Hc as [He%Z.eqb_eq Hf%negb_true_iff].
  apply orb_false_iff in Hf as [? ?].
  split; [left|]. split; [apply target_to_nat; assumption|]. repeat split; assumption.
Qed.

Lemma planFrom_Slide rest reverse g i np :
  Forall (fun i => (i < length g)%nat) rest ->
  planFrom rest reverse g = Slide i np ->
  i ∈ rest /\ canSlide reverse g i np.
Proof.
  induction 1 as [|j rest Hj _ IH]; [discriminate|].
  plan_head reverse j g; intros Hp;
    try (destruct (IH Hp) as [? ?]; split; [right|]; assumption);
    try discriminate.
  injection Hp as <- <-. apply Z.eqb_eq in Hd.
  split; [left|]. split; [apply target_to_nat; assumption|]. repeat split; assumption.
Qed.

Lemma planFrom_Stay rest reverse g :
  planFrom rest reverse g = Stay <-> Forall (stuck reverse g) rest.
Proof.
  induction rest as [|j rest IH]; [split; [constructor|reflexivity]|].
  plan_head reverse j g.
  - rewrite IH; split; [intros H; constructor; [|exact H]|intros H; inversion H; assumption].
    intros np [Hnp [_ Hlt]] _. apply orb_true_iff in Hrange as [?%Z.ltb_lt| ?%Z.leb_le];
      subst newPos; destruct reverse; lia.
  - rewrite IH; split; [intros H; constructor; [|exact H]|intros H; inversion H; assumption].
    intros np _ Hnz. apply Z.eqb_eq in Hv. contradiction.
  - split; [discriminate|]. intros H; inversion H as [|? ? Hs _]; subst.
    apply andb_true_iff in Hc as [He%Z.eqb_eq Hf%negb_true_iff].
    assert (Hj : (j < length g)%nat \/ (length g <= j)%nat) by lia.
    destruct Hj as [Hj|Hj].
    + destruct (Hs _ (target_to_nat reverse g j Hj Hlo Hhi) Hv) as [_ Hs'].
      pose proof (Hs' He) as Ht; unfold newPos in *; congruence.
    + rewrite (list_lookup_total_alt g j), (lookup_ge_None_2 g j) in Hv by lia.
      contradiction Hv; reflexivity.
  - split; [discriminate|]. intros H; inversion H as [|? ? Hs _]; subst.
    apply Z.eqb_eq in Hd.
    assert (Hj : (j < length g)%nat \/ (length g <= j)%nat) by lia.
    destruct Hj as [Hj|Hj].
    + destruct (Hs _ (target_to_nat reverse g j Hj Hlo Hhi) Hv) as [Hs' _].
      contradiction.
    + rewrite (list_lookup_total_alt g j), (lookup_ge_None_2 g j) in Hv by lia.
      contradiction Hv; reflexivity.
  - rewrite IH; split; [intros H; constructor; [|exact H]|intros H; inversion H; assumption].
    intros np [Hnp _] _.
    assert (np = Z.to_nat newPos) as -> by (subst newPos; destruct reverse; lia).
    apply Z.eqb_neq in Hd. split; [exact Hd|].
    intros He. apply andb_false_iff in Hc as [Hc|Hc].
    + apply Z.eqb_neq in Hc; contradiction.
    + apply negb_false_iff in Hc; exact Hc.
Qed.

Lemma plan_Combine g dir i np :
  plan g dir = Combine i np -> canCombine (isReverse dir) g i np.
Proof. intros H; eapply planFrom_Combine; [apply iterOrder_range|exact H]. Qed.

Lemma plan_Slide g dir i np :
  plan g dir = Slide i np -> canSlide (isReverse dir) g i np.
Proof. intros H; eapply planFrom_Slide; [apply iterOrder_range|exact H]. Qed.

Lemma iterOrder_all n reverse i : (i < n)%nat -> i ∈ iterOrder n reverse.
Proof.
  intros Hi; unfold iterOrder; destruct reverse;
    [apply list_elem_of_In, (proj1 (in_rev _ _)), list_elem_of_In|]; apply elem_of_seq; lia.
Qed.

Lemma plan_Stay g dir :
  plan g dir = Stay <-> forall i, (i < length g)%nat -> stuck (isReverse dir) g i.
Proof.
  unfold plan; rewrite planFrom_Stay, Forall_forall; split.
  - intros H i Hi; apply H, iterOrder_all, Hi.
  - intros H i Hi. apply H. pose proof (iterOrder_range (length g) (isReverse dir)) as Hr.
    rewrite Forall_forall in Hr; apply Hr, Hi.
Qed.

End Plan.

(** ** The 4 by 4 array and its transposition *)

Section Matrix.

Lemma row_inv (r : list Tile) :
  length r = gridHeight -> exists a b c d, r = [a; b; c; d].
Proof.
  destruct r as [|a [|b [|c [|d [|]]]]]; try discriminate; intros _; eauto.
Qed.

Lemma wf_inv t :
  wf t -> exists r0 r1 r2 r3 : list Tile,
    t = [r0; r1; r2; r3] /\ length r0 = gridHeight /\ length r1 = gridHeight
    /\ length r2 = gridHeight /\ length r3 = gridHeight.
Proof.
  intros [Hlen Hall].
  destruct t as [|r0 [|r1 [|r2 [|r3 [|]]]]]; try discriminate.
  apply Forall_cons in Hall as [? Hall]; apply Forall_cons in Hall as [? Hall];
  apply Forall_cons in Hall as [? Hall]; apply Forall_cons in Hall as [? Hall].
  exists r0, r1, r2, r3; auto.
Qed.

Lemma wf_cells t :
  wf t -> exists a0 a1 a2 a3 b0 b1 b2 b3 c0 c1 c2 c3 d0 d1 d2 d3 : Tile,
    t = [[a0; a1; a2; a3]; [b0; b1; b2; b3]; [c0; c1; c2; c3]; [d0; d1; d2; d3]].
Proof.
  intros (r0 & r1 & r2 & r3 & -> & H0 & H1 & H2 & H3)%wf_inv.
  destruct (row_inv _ H0) as (a0 & a1 & a2 & a3 & ->).
  destruct (row_inv _ H1) as (b0 & b1 & b2 & b3 & ->).
  destruct (row_inv _ H2) as (c0 & c1 & c2 & c3 & ->).
  destruct (row_inv _ H3) as (d0 & d1 & d2 & d3 & ->).
  repeat eexists.
Qed.

Lemma wf_of_cells (a0 a1 a2 a3 b0 b1 b2 b3 c0 c1 c2 c3 d0 d1 d2 d3 : Tile) :
  wf [[a0; a1; a2; a3]; [b0; b1; b2; b3]; [c0; c1; c2; c3]; [d0; d1; d2; d3]].
Proof. split; [reflexivity|repeat constructor]. Qed.

Lemma transpose_cells t :
  transpose t =
    [[cell t 0 0; cell t 1 0; cell t 2 0; cell t 3 0];
     [cell t 0 1; cell t 1 1; cell t 2 1; cell t 3 1];
     [cell t 0 2; cell t 1 2; cell t 2 2; cell t 3 2];
     [cell t 0 3; cell t 1 3; cell t 2 3; cell t 3 3]].
Proof. reflexivity. Qed.

Lemma transpose_wf t : wf (transpose t).
Proof. rewrite transpose_cells; apply wf_of_cells. Qed.

Lemma transpose_involutive t : wf t -> transpose (transpose t) = t.
Proof.
  intros H; destruct (wf_cells t H) as
    (a0 & a1 & a2 & a3 & b0 & b1 & b2 & b3 & c0 & c1 & c2 & c3
     & d0 & d1 & d2 & d3 & ->).
  reflexivity.
Qed.

Lemma cell_transpose t i j :
  (i < gridWidth)%nat -> (j < gridHeight)%nat -> cell (transpose t) i j = cell t j i.
Proof.
  intros Hi Hj; rewrite transpose_cells.
  destruct i as [|[|[|[|i]]]]; [..|unfold gridWidth, GridSize in Hi; lia];
  destruct j as [|[|[|[|j]]]]; try reflexivity;
  unfold gridHeight, GridSize in Hj; lia.
Qed.

Lemma wf_row t row : wf t -> (row < gridHeight)%nat -> length (t !!! row) = gridWidth.
Proof.
  intros (r0 & r1 & r2 & r3 & -> & H0 & H1 & H2 & H3)%wf_inv Hrow.
  destruct row as [|[|[|[|row]]]]; try assumption.
  unfold gridHeight, GridSize in Hrow; lia.
Qed.

Lemma wf_insert t row r : wf t -> length r = gridWidth -> wf (<[row := r]> t).
Proof.
  intros [Hlen Hall] Hr; split; [rewrite length_insert; exact Hlen|].
  apply Forall_insert; assumption.
Qed.

Lemma cell_insert t row r i j :
  (row < length t)%nat ->
  cell (<[row := r]> t) i j = if decide (i = row) then r !!! j else cell t i j.
Proof.
  intros Hrow; unfold cell; destruct (decide (i = row)) as [->|Hne].
  - rewrite list_lookup_total_insert_eq by assumption; reflexivity.
  - rewrite list_lookup_total_insert_ne by congruence; reflexivity.
Qed.

Lemma clearedTiles_map t : wf t -> clearedTiles t = map (map (setCmb false)) t.
Proof.
  intros H; destruct (wf_cells t H) as
    (a0 & a1 & a2 & a3 & b0 & b1 & b2 & b3 & c0 & c1 & c2 & c3
     & d0 & d1 & d2 & d3 & ->).
  reflexivity.
Qed.

Lemma ClearCmbFlags_map g :
  wf (Tiles g) -> Tiles (ClearCmbFlags g) = map (map (setCmb false)) (Tiles g).
Proof.
  intros H; destruct g as [t l]; simpl in *; destruct (wf_cells t H) as
    (a0 & a1 & a2 & a3 & b0 & b1 & b2 & b3 & c0 & c1 & c2 & c3
     & d0 & d1 & d2 & d3 & ->).
  reflexivity.
Qed.

Lemma clearedTiles_wf t : wf t -> wf (clearedTiles t).
Proof.
  intros H; rewrite clearedTiles_map by assumption.
  destruct H as [Hlen Hall]; split; [rewrite length_map; exact Hlen|].
  apply Forall_map; eapply Forall_impl; [exact Hall|].
  intros r Hr; simpl; rewrite length_map; exact Hr.
Qed.

Lemma cell_cleared t i j :
  wf t -> (i < gridWidth)%nat -> (j < gridHeight)%nat ->
  cell (clearedTiles t) i j = setCmb false (cell t i j).
Proof.
  intros H Hi Hj; rewrite clearedTiles_map by assumption.
  destruct (wf_cells t H) as
    (a0 & a1 & a2 & a3 & b0 & b1 & b2 & b3 & c0 & c1 & c2 & c3
     & d0 & d1 & d2 & d3 & ->).
  destruct i as [|[|[|[|i]]]]; [..|unfold gridWidth, GridSize in Hi; lia];
  destruct j as [|[|[|[|j]]]]; try reflexivity;
  unfold gridHeight, GridSize in Hj; lia.
Qed.

Lemma orient_wf dir t : wf t -> wf (orient dir t).
Proof. unfold orient; destruct (vertical dir); [intros _; apply transpose_wf|auto]. Qed.

Lemma orient_involutive dir t : wf t -> orient dir (orient dir t) = t.
Proof.
  unfold orient; destruct (vertical dir); [apply transpose_involutive|reflexivity].
Qed.

End Matrix.

(** ** Sums over the cells *)

Section Sums.

Lemma wsum_insert f k g i x :
  (i < length g)%nat ->
  wsum f k (<[i := x]> g) = wsum f k g - f (k + i)%nat (g !!! i) + f (k + i)%nat x.
Proof.
  revert k i; induction g as [|t g IH]; intros k [|i] Hi; simpl in *; try lia.
  - rewrite Nat.add_0_r; lia.
  - rewrite IH by lia. replace (S k + i)%nat with (k + S i)%nat by lia. lia.
Qed.

Lemma wsum_nonneg f k g : (forall i t, 0 <= f i t) -> 0 <= wsum f k g.
Proof.
  intros Hf; revert k; induction g as [|t g IH]; intros k; simpl; [lia|].
  specialize (Hf k t); specialize (IH (S k)); lia.
Qed.

Lemma wsum_ge_cell f k g i :
  (forall i t, 0 <= f i t) -> (i < length g)%nat ->
  f (k + i)%nat (g !!! i) <= wsum f k g.
Proof.
  intros Hf; revert k i; induction g as [|t g IH]; intros k [|i] Hi; simpl in *; try lia.
  - rewrite Nat.add_0_r. pose proof (wsum_nonneg f (S k) g Hf); lia.
  - specialize (IH (S k) i ltac:(lia)).
    replace (S k + i)%nat with (k + S i)%nat in IH by lia.
    specialize (Hf k t); change ((t :: g) !!! S i) with (g !!! i); lia.
Qed.

Lemma total_insert f t row r :
  (row < length t)%nat ->
  total f (<[row := r]> t) = total f t - wsum f 0 (t !!! row) + wsum f 0 r.
Proof.
  revert row; induction t as [|r0 t IH]; intros [|row] Hrow; simpl in *; try lia.
  rewrite IH by lia. change ((r0 :: t) !!! S row) with (t !!! row). lia.
Qed.

Lemma total_nonneg f t : (forall i x, 0 <= f i x) -> 0 <= total f t.
Proof.
  intros Hf; induction t as [|r t IH]; simpl; [lia|].
  pose proof (wsum_nonneg f 0 r Hf); lia.
Qed.

Lemma total_ge_row f t row :
  (forall i x, 0 <= f i x) -> (row < length t)%nat -> wsum f 0 (t !!! row) <= total f t.
Proof.
  intros Hf; revert row; induction t as [|r t IH]; intros [|row] Hrow; simpl in *; try lia.
  - pose proof (total_nonneg f t Hf); unfold total in *; lia.
  - specialize (IH row ltac:(lia)). pose proof (wsum_nonneg f 0 r Hf).
    change ((r :: t) !!! S row) with (t !!! row). unfold total in *; lia.
Qed.

(** A sum that does not look at the column is the same over the transposed
    grid. *)
Lemma total_transpose (f : Tile -> Z) t :
  wf t -> total (fun _ => f) (transpose t) = total (fun _ => f) t.
Proof.
  intros H; destruct (wf_cells t H) as
    (a0 & a1 & a2 & a3 & b0 & b1 & b2 & b3 & c0 & c1 & c2 & c3
     & d0 & d1 & d2 & d3 & ->).
  cbn; lia.
Qed.

Lemma total_orient (f : Tile -> Z) dir t :
  wf t -> total (fun _ => f) (orient dir t) = total (fun _ => f) t.
Proof.
  unfold orient; destruct (vertical dir); [apply total_transpose|reflexivity].
Qed.

Lemma emptyOf_nonneg i t : 0 <= emptyOf i t.
Proof. unfold emptyOf; destruct (Val t =? 0); lia. Qed.

Lemma distOf_bounds reverse i t :
  (i < gridWidth)%nat -> 0 <= distOf reverse i t <= 3.
Proof.
  unfold distOf, gridWidth, GridSize; intros Hi.
  destruct (Val t =? 0), reverse; lia.
Qed.

Lemma row_potential_bounds reverse (a b c d : Tile) :
  0 <= wsum (distOf reverse) 0 [a; b; c; d] <= 6.
Proof.
  cbn; unfold distOf, gridWidth, GridSize.
  destruct reverse, (Val a =? 0), (Val b =? 0), (Val c =? 0), (Val d =? 0); lia.
Qed.

Lemma potential_bounds dir t : wf t -> 0 <= potential dir t <= 24.
Proof.
  intros H; unfold potential.
  destruct (wf_cells _ (orient_wf dir t H)) as
    (a0 & a1 & a2 & a3 & b0 & b1 & b2 & b3 & c0 & c1 & c2 & c3
     & d0 & d1 & d2 & d3 & ->).
  pose proof (row_potential_bounds (isReverse dir) a0 a1 a2 a3).
  pose proof (row_potential_bounds (isReverse dir) b0 b1 b2 b3).
  pose proof (row_potential_bounds (isReverse dir) c0 c1 c2 c3).
  pose proof (row_potential_bounds (isReverse dir) d0 d1 d2 d3).
  unfold total, foldr; lia.
Qed.

End Sums.

(** ** The effect of a step on a row and on the grid *)

Section RowEffect.

Lemma target_ne reverse g i np : target reverse g i np -> i <> np.
Proof. intros [H _]; destruct reverse; lia. Qed.

Lemma combinedRow_length g i np w : length (combinedRow g i np w) = length g.
Proof. unfold combinedRow; rewrite !length_insert; reflexivity. Qed.

Lemma slidRow_length g i np w : length (slidRow g i np w) = length g.
Proof. unfold slidRow; rewrite !length_insert; reflexivity. Qed.

Lemma combinedRow_lookup reverse g i np w j :
  canCombine reverse g i np ->
  combinedRow g i np w !!! j =
    if decide (j = i) then mkTile 0 false (S (S (issued w)))
    else if decide (j = np)
         then mkTile (int_add (Val (g !!! i)) (Val (g !!! i))) true (S (issued w))
         else g !!! j.
Proof.
  intros (Ht & _ & Hv & Hci & _). pose proof (target_ne _ _ _ _ Ht) as Hne.
  destruct Ht as (_ & Hi & Hnp). unfold combinedRow.
  destruct (decide (j = i)) as [->|Hji].
  - rewrite list_lookup_total_insert_eq by (rewrite length_insert; lia).
    rewrite Hci; reflexivity.
  - rewrite list_lookup_total_insert_ne by congruence.
    destruct (decide (j = np)) as [->|Hjn].
    + rewrite list_lookup_total_insert_eq by lia. rewrite Hv; reflexivity.
    + rewrite list_lookup_total_insert_ne by congruence. reflexivity.
Qed.

Lemma slidRow_lookup reverse g i np w j :
  canSlide reverse g i np ->
  slidRow g i np w !!! j =
    if decide (j = i) then mkTile 0 false (S (issued w))
    else if decide (j = np) then g !!! i else g !!! j.
Proof.
  intros (Ht & _ & _). pose proof (target_ne _ _ _ _ Ht) as Hne.
  destruct Ht as (_ & Hi & Hnp). unfold slidRow.
  destruct (decide (j = i)) as [->|Hji].
  - rewrite list_lookup_total_insert_eq by (rewrite length_insert; lia). reflexivity.
  - rewrite list_lookup_total_insert_ne by congruence.
    destruct (decide (j = np)) as [->|Hjn].
    + rewrite list_lookup_total_insert_eq by lia. reflexivity.
    + rewrite list_lookup_total_insert_ne by congruence. reflexivity.
Qed.

Lemma wsum_combinedRow f reverse g i np w :
  canCombine reverse g i np ->
  wsum f 0 (combinedRow g i np w) =
    wsum f 0 g - f i (g !!! i) - f np (g !!! np)
    + f i (mkTile 0 false (S (S (issued w))))
    + f np (mkTile (int_add (Val (g !!! i)) (Val (g !!! i))) true (S (issued w))).
Proof.
  intros (Ht & _ & Hv & Hci & _). pose proof (target_ne _ _ _ _ Ht) as Hne.
  destruct Ht as (_ & Hi & Hnp). unfold combinedRow.
  rewrite wsum_insert by (rewrite length_insert; lia).
  rewrite wsum_insert by lia.
  rewrite list_lookup_total_insert_ne by congruence.
  rewrite Hci, Hv. simpl; lia.
Qed.

Lemma wsum_slidRow f reverse g i np w :
  canSlide reverse g i np ->
  wsum f 0 (slidRow g i np w) =
    wsum f 0 g - f i (g !!! i) - f np (g !!! np)
    + f i (mkTile 0 false (S (issued w))) + f np (g !!! i).
Proof.
  intros (Ht & _ & _). pose proof (target_ne _ _ _ _ Ht) as Hne.
  destruct Ht as (_ & Hi & Hnp). unfold slidRow.
  rewrite wsum_insert by (rewrite length_insert; lia).
  rewrite wsum_insert by lia.
  rewrite list_lookup_total_insert_ne by congruence.
  simpl; lia.
Qed.

Lemma moveRow_eq dir row v w :
  moveRow dir row v w =
    let T := orient dir (v_tiles v) in
    let '(r, rowMoved, points, w') := perform (plan (T !!! row) dir) (T !!! row) w in
    Some (mkVars (orient dir (<[row := r]> T))
            (if rowMoved : bool then true else v_movedThisTurn v)
            (if rowMoved : bool then true else v_moved v)
            (if 0 <? points then points else v_pointsGained v), w').
Proof.
  unfold moveRow, mbind, M_bind. fold (orient dir (v_tiles v)).
  rewrite moveStep_plan.
  destruct (perform _ _ w) as [[[r rowMoved] points] w'].
  destruct rowMoved; reflexivity.
Qed.

Lemma moveRow_Stay dir row v w :
  wf (v_tiles v) -> (row < gridHeight)%nat ->
  plan (orient dir (v_tiles v) !!! row) dir = Stay ->
  moveRow dir row v w = Some (v, w).
Proof.
  intros Hwf Hrow Hplan. rewrite moveRow_eq; cbv zeta. rewrite Hplan; cbn [perform].
  rewrite list_insert_id' by (intros; apply list_lookup_lookup_total_lt; assumption).
  rewrite orient_involutive by assumption.
  destruct v; reflexivity.
Qed.

Lemma moveRow_Combine dir row v w i np :
  plan (orient dir (v_tiles v) !!! row) dir = Combine i np ->
  let g := orient dir (v_tiles v) !!! row in
  let p := int_add (Val (g !!! np)) (Val (g !!! i)) in
  moveRow dir row v w =
    Some (mkVars (orient dir (<[row := combinedRow g i np w]> (orient dir (v_tiles v))))
            true true (if 0 <? p then p else v_pointsGained v), issue 2 w).
Proof. intros Hplan; rewrite moveRow_eq; cbv zeta; rewrite Hplan; reflexivity. Qed.

Lemma moveRow_Slide dir row v w i np :
  plan (orient dir (v_tiles v) !!! row) dir = Slide i np ->
  let g := orient dir (v_tiles v) !!! row in
  moveRow dir row v w =
    Some (mkVars (orient dir (<[row := slidRow g i np w]> (orient dir (v_tiles v))))
            true true (v_pointsGained v), issue 1 w).
Proof. intros Hplan; rewrite moveRow_eq; cbv zeta; rewrite Hplan; reflexivity. Qed.

End RowEffect.

(** ** The merges of a call, in the order they happen *)

Section Loops.

Lemma dist_combined reverse g i np w :
  length g = gridWidth -> canCombine reverse g i np ->
  wsum (distOf reverse) 0 (combinedRow g i np w) < wsum (distOf reverse) 0 g.
Proof.
  intros Hlen Hc. rewrite (wsum_combinedRow _ reverse) by assumption.
  destruct Hc as ((Hnp & Hi & Hnpl) & Hv & He & _).
  unfold distOf; rewrite He; cbn [Val].
  apply Z.eqb_neq in Hv; rewrite Hv.
  rewrite Hlen in *; unfold gridWidth, GridSize in *.
  destruct (int_add _ _ =? 0), reverse; cbn; lia.
Qed.

Lemma dist_slid reverse g i np w :
  length g = gridWidth -> canSlide reverse g i np ->
  wsum (distOf reverse) 0 (slidRow g i np w) < wsum (distOf reverse) 0 g.
Proof.
  intros Hlen Hc. rewrite (wsum_slidRow _ reverse) by assumption.
  destruct Hc as ((Hnp & Hi & Hnpl) & Hv & He).
  unfold distOf; rewrite He; cbn [Val].
  apply Z.eqb_neq in Hv; rewrite Hv.
  rewrite Hlen in *; unfold gridWidth, GridSize in *.
  destruct reverse; cbn; lia.
Qed.

Lemma orient_length dir t : wf t -> length (orient dir t) = gridHeight.
Proof. intros H; apply (orient_wf dir) in H as [H _]; exact H. Qed.

(** A row step always returns; it either changes nothing or moves a tile
    closer to the wall. *)
Lemma moveRow_base dir row v w :
  wf (v_tiles v) -> (row < gridHeight)%nat ->
  exists v' w', moveRow dir row v w = Some (v', w') /\ wf (v_tiles v') /\
    ((v' = v /\ w' = w /\ plan (orient dir (v_tiles v) !!! row) dir = Stay) \/
     (v_movedThisTurn v' = true /\ v_moved v' = true /\
      potential dir (v_tiles v') < potential dir (v_tiles v))).
Proof.
  intros Hwf Hrow.
  pose proof (orient_wf dir _ Hwf) as HwfT.
  pose proof (wf_row _ row HwfT Hrow) as Hlen.
  pose proof (orient_length dir _ Hwf) as HlenT.
  destruct (plan (orient dir (v_tiles v) !!! row) dir) as [|i np|i np] eqn:Hplan.
  - exists v, w; rewrite moveRow_Stay by assumption.
    split; [reflexivity|split; [assumption|left; auto]].
  - pose proof (plan_Combine _ _ _ _ Hplan) as Hc.
    rewrite (moveRow_Combine _ _ _ _ _ _ Hplan); cbv zeta.
    eexists _, _; split; [reflexivity|]; cbn [v_tiles v_movedThisTurn v_moved].
    assert (wf (<[row := combinedRow (orient dir (v_tiles v) !!! row) i np w]>
                  (orient dir (v_tiles v)))) as Hwf'
      by (apply wf_insert; [assumption|rewrite combinedRow_length; assumption]).
    split; [apply orient_wf; assumption|right].
    split; [reflexivity|split; [reflexivity|]].
    unfold potential; rewrite orient_involutive by assumption.
    rewrite total_insert by lia.
    pose proof (dist_combined _ _ _ _ w Hlen Hc); lia.
  - pose proof (plan_Slide _ _ _ _ Hplan) as Hc.
    rewrite (moveRow_Slide _ _ _ _ _ _ Hplan); cbv zeta.
    eexists _, _; split; [reflexivity|]; cbn [v_tiles v_movedThisTurn v_moved].
    assert (wf (<[row := slidRow (orient dir (v_tiles v) !!! row) i np w]>
                  (orient dir (v_tiles v)))) as Hwf'
      by (apply wf_insert; [assumption|rewrite slidRow_length; assumption]).
    split; [apply orient_wf; assumption|right].
    split; [reflexivity|split; [reflexivity|]].
    unfold potential; rewrite orient_involutive by assumption.
    rewrite total_insert by lia.
    pose proof (dist_slid _ _ _ _ w Hlen Hc); lia.
Qed.

Lemma pass_rule (P : Inv) dir :
  preserved P dir ->
  forall rows log v w,
    Forall (fun row => (row < gridHeight)%nat) rows ->
    wf (v_tiles v) -> holds P log v w ->
    exists v' w',
      forEach rows (moveRow dir) v w = Some (v', w') /\ wf (v_tiles v') /\
      holds P (log ++ passMerges dir rows v w) v' w' /\
      ((v' = v /\ w' = w) \/
       (v_movedThisTurn v' = true /\
        potential dir (v_tiles v') < potential dir (v_tiles v))).
Proof.
  intros Hstep rows; induction rows as [|row rows IH]; intros log v w Hrows Hwf HP.
  - exists v, w; cbn; rewrite app_nil_r.
    split; [reflexivity|split; [assumption|split; [assumption|left; auto]]].
  - apply Forall_cons in Hrows as [Hrow Hrows].
    destruct (moveRow_base dir row v w Hwf Hrow) as (v1 & w1 & Hm & Hwf1 & Hcase).
    pose proof (Hstep _ _ _ _ _ _ Hrow Hwf HP Hm) as HP1.
    destruct (IH _ _ _ Hrows Hwf1 HP1) as (v2 & w2 & Hf & Hwf2 & HP2 & Hcase2).
    exists v2, w2. cbn [forEach passMerges]; unfold mbind, M_bind; rewrite Hm.
    rewrite app_assoc. split; [exact Hf|split; [exact Hwf2|split; [exact HP2|]]].
    destruct Hcase as [(-> & -> & _)|(Hmt & _ & Hlt)]; [exact Hcase2|right].
    destruct Hcase2 as [(-> & ->)|(Hmt2 & Hlt2)]; [auto|split; [assumption|lia]].
Qed.

Lemma seq_range n : Forall (fun row => (row < n)%nat) (seq 0 n).
Proof. apply Forall_forall; intros i Hi%elem_of_seq; lia. Qed.

(** The loop of [move] returns once the fuel exceeds the distance the tiles
    can still travel, and carries any preserved invariant to its result. *)
Lemma loop_rule (P : Inv) dir :
  preserved P dir ->
  forall n log tiles moved pts w,
    potential dir tiles <= Z.of_nat n -> wf tiles -> P log tiles moved pts w ->
    exists tiles' moved' pts' w',
      wf tiles' /\
      forall fuel, (n < fuel)%nat ->
        moveLoop fuel dir tiles moved pts w = Some (tiles', moved', pts', w') /\
        P (log ++ loopMerges fuel dir tiles moved pts w) tiles' moved' pts' w'.
Proof.
  intros Hstep n; induction n as [|n IH]; intros log tiles moved pts w Hpot Hwf HP.
  - destruct (pass_rule P dir Hstep (seq 0 gridHeight) log
                (mkVars tiles false moved pts) w (seq_range _) Hwf HP)
      as (v & w' & Hf & Hwf' & HP' & Hcase).
    pose proof (potential_bounds dir _ Hwf') as Hb.
    destruct Hcase as [(-> & ->)|(_ & Hlt)]; [|cbn in Hlt; lia].
    exists tiles, moved, pts, w; split; [assumption|].
    intros [|fuel] Hfuel; [lia|]. cbn [moveLoop loopMerges]; unfold mbind, M_bind.
    rewrite Hf; cbn. rewrite app_nil_r. split; [reflexivity|exact HP'].
  - destruct (pass_rule P dir Hstep (seq 0 gridHeight) log
                (mkVars tiles false moved pts) w (seq_range _) Hwf HP)
      as (v & w' & Hf & Hwf' & HP' & Hcase).
    destruct Hcase as [(-> & ->)|(Hmt & Hlt)].
    + exists tiles, moved, pts, w; split; [assumption|].
      intros [|fuel] Hfuel; [lia|]. cbn [moveLoop loopMerges]; unfold mbind, M_bind.
      rewrite Hf; cbn. rewrite app_nil_r. split; [reflexivity|exact HP'].
    + cbn [v_tiles] in Hlt.
      destruct (IH _ (v_tiles v) (v_moved v) (v_pointsGained v) w' ltac:(lia) Hwf' HP')
        as (tiles' & moved' & pts' & w'' & Hwf'' & Hrun).
      exists tiles', moved', pts', w''; split; [assumption|].
      intros [|fuel] Hfuel; [lia|]. cbn [moveLoop loopMerges]; unfold mbind, M_bind.
      rewrite Hf, Hmt; cbn [negb]. rewrite app_assoc.
      apply Hrun; lia.
Qed.

End Loops.

Section Steps.

(** What one row step did, read on the grid as [moveStep] sees it. *)
Lemma moveRow_inv dir row v w v' w' :
  wf (v_tiles v) -> (row < gridHeight)%nat ->
  moveRow dir row v w = Some (v', w') ->
  let T := orient dir (v_tiles v) in
  let g := T !!! row in
  (plan g dir = Stay /\ v' = v /\ w' = w) \/
  (exists i np,
     plan g dir = Combine i np /\ canCombine (isReverse dir) g i np /\
     orient dir (v_tiles v') = <[row := combinedRow g i np w]> T /\
     v_moved v' = true /\
     v_pointsGained v' =
       (if 0 <? int_add (Val (g !!! i)) (Val (g !!! i))
        then int_add (Val (g !!! i)) (Val (g !!! i)) else v_pointsGained v) /\
     w' = issue 2 w) \/
  (exists i np,
     plan g dir = Slide i np /\ canSlide (isReverse dir) g i np /\
     orient dir (v_tiles v') = <[row := slidRow g i np w]> T /\
     v_moved v' = true /\ v_pointsGained v' = v_pointsGained v /\
     w' = issue 1 w).
Proof.
  intros Hwf Hrow Hm T g.
  pose proof (orient_wf dir _ Hwf) as HwfT.
  pose proof (wf_row _ row HwfT Hrow) as Hlen.
  destruct (plan g dir) as [|i np|i np] eqn:Hplan.
  - left. rewrite moveRow_Stay in Hm by assumption. injection Hm as <- <-; auto.
  - right; left. pose proof (plan_Combine _ _ _ _ Hplan) as Hc.
    rewrite (moveRow_Combine _ _ _ _ _ _ Hplan) in Hm; cbv zeta in Hm.
    injection Hm as <- <-; cbn [v_tiles v_moved v_pointsGained].
    exists i, np. split; [reflexivity|split; [exact Hc|]].
    rewrite orient_involutive
      by (apply wf_insert; [assumption|rewrite combinedRow_length; assumption]).
    destruct Hc as (_ & _ & He & _). unfold g, T in *. rewrite He. auto.
  - right; right. pose proof (plan_Slide _ _ _ _ Hplan) as Hc.
    rewrite (moveRow_Slide _ _ _ _ _ _ Hplan) in Hm; cbv zeta in Hm.
    injection Hm as <- <-; cbn [v_tiles v_moved v_pointsGained].
    exists i, np. split; [reflexivity|split; [exact Hc|]].
    rewrite orient_involutive
      by (apply wf_insert; [assumption|rewrite slidRow_length; assumption]).
    auto.
Qed.

Lemma move_unfold fuel dir g w :
  move fuel dir g w =
    match moveLoop fuel dir (clearedTiles (Tiles g)) false 0 w with
    | Some (tiles, moved, pts, w') => Some (mkGrid tiles (LastMove g), moved, pts, w')
    | None => None
    end.
Proof.
  unfold move, mbind, M_bind. fold (clearedTiles (Tiles g)).
  destruct (moveLoop _ _ _ _ _ _) as [[[[tiles moved] pts] w']|]; reflexivity.
Qed.

Lemma move_rule (P : Inv) dir g w :
  preserved P dir -> wf (Tiles g) ->
  P [] (clearedTiles (Tiles g)) false 0 w ->
  exists tiles' moved' pts' w',
    wf tiles' /\
    forall fuel, (enoughFuel <= fuel)%nat ->
      move fuel dir g w = Some (mkGrid tiles' (LastMove g), moved', pts', w') /\
      P (merges fuel dir g w) tiles' moved' pts' w'.
Proof.
  intros Hstep Hwf HP.
  pose proof (clearedTiles_wf _ Hwf) as Hwfc.
  pose proof (potential_bounds dir _ Hwfc) as Hb.
  destruct (loop_rule P dir Hstep 24 [] (clearedTiles (Tiles g)) false 0 w
              ltac:(lia) Hwfc HP)
    as (tiles' & moved' & pts' & w' & Hwf' & Hrun).
  exists tiles', moved', pts', w'; split; [assumption|].
  intros fuel Hfuel. unfold enoughFuel in Hfuel.
  destruct (Hrun fuel ltac:(lia)) as [Hl HP'].
  rewrite move_unfold, Hl. split; [reflexivity|exact HP'].
Qed.

End Steps.

(** ** Properties that hold in every cell *)

Ltac pow2 :=
  change (2 ^ 62) with 4611686018427387904 in *;
  change (2 ^ 63) with 9223372036854775808 in *;
  change (2 ^ 64) with 18446744073709551616 in *.

Section Everywhere.

Lemma everywhere_orient Q dir t : everywhere Q t -> everywhere Q (orient dir t).
Proof.
  unfold orient; destruct (vertical dir); [|auto].
  intros H i j Hi Hj; rewrite cell_transpose by assumption; apply H; assumption.
Qed.

Lemma everywhere_unorient Q dir t :
  wf t -> everywhere Q (orient dir t) -> everywhere Q t.
Proof.
  intros Hwf H; rewrite <- (orient_involutive dir t Hwf); apply everywhere_orient, H.
Qed.

Lemma everywhere_insert Q t row r :
  (row < length t)%nat -> everywhere Q t ->
  (forall j, (j < gridWidth)%nat -> Q (r !!! j)) ->
  everywhere Q (<[row := r]> t).
Proof.
  intros Hrow H Hr i j Hi Hj; rewrite cell_insert by assumption.
  destruct (decide (i = row)); [apply Hr|apply H]; assumption.
Qed.

Lemma everywhere_cleared (Q : Tile -> Prop) t :
  wf t -> everywhere (fun x => Q (setCmb false x)) t -> everywhere Q (clearedTiles t).
Proof.
  intros Hwf H i j Hi Hj; rewrite cell_cleared by assumption; apply H; assumption.
Qed.

Lemma inRange_everywhere t :
  wf t -> inRange t -> everywhere (fun x => 0 <= Val x < 2 ^ 62) t.
Proof.
  intros [Hlen Hall] H i j Hi Hj; unfold cell.
  assert (Hi' : (i < length t)%nat) by (rewrite Hlen; exact Hi).
  pose proof (Forall_lookup_total_1 _ _ i H Hi') as Hr.
  pose proof (Forall_lookup_total_1 _ _ i Hall Hi') as Hl; cbv beta in Hl.
  apply (Forall_lookup_total_1 _ _ j Hr). rewrite Hl; exact Hj.
Qed.

Lemma inRange_valid t : wf t -> inRange t -> valid (clearedTiles t).
Proof.
  intros Hwf H; apply everywhere_cleared; [assumption|].
  intros i j Hi Hj; pose proof (inRange_everywhere t Hwf H i j Hi Hj) as Hv.
  cbv beta in Hv; unfold okTile; cbn; pow2; lia.
Qed.

Lemma int_add_small a b :
  - 2 ^ 63 <= a + b < 2 ^ 63 -> int_add a b = a + b.
Proof.
  intros H; unfold int_add, int_wrap; pow2.
  rewrite Z.mod_small; lia.
Qed.

Lemma int_add_mod a b : exists k, int_add a b = a + b + k * 2 ^ 64.
Proof.
  exists (- ((a + b + 2 ^ 63) / 2 ^ 64)). unfold int_add, int_wrap.
  rewrite Z.mod_eq by (pow2; lia). lia.
Qed.

End Everywhere.

(** ** Invariants of the loop of [move] *)

Section Invariants.

Lemma moveRow_wf dir row v w v' w' :
  wf (v_tiles v) -> (row < gridHeight)%nat ->
  moveRow dir row v w = Some (v', w') -> wf (v_tiles v').
Proof.
  intros Hwf Hrow Hm.
  destruct (moveRow_base dir row v w Hwf Hrow) as (v1 & w1 & Hm1 & Hwf' & _).
  rewrite Hm in Hm1; injection Hm1 as <- <-; exact Hwf'.
Qed.

Lemma total_step (f : Tile -> Z) dir row tiles tiles' r :
  wf tiles -> wf tiles' -> (row < gridHeight)%nat ->
  orient dir tiles' = <[row := r]> (orient dir tiles) ->
  total (fun _ => f) tiles' =
    total (fun _ => f) tiles - wsum (fun _ => f) 0 (orient dir tiles !!! row)
    + wsum (fun _ => f) 0 r.
Proof.
  intros Hwf Hwf' Hrow HT.
  rewrite <- (total_orient f dir tiles'), HT by assumption.
  rewrite total_insert by (rewrite orient_length; assumption).
  rewrite total_orient by assumption. reflexivity.
Qed.

Lemma everywhere_step Q dir row tiles tiles' r :
  wf tiles -> wf tiles' -> (row < gridHeight)%nat ->
  orient dir tiles' = <[row := r]> (orient dir tiles) ->
  everywhere Q tiles -> (forall j, (j < gridWidth)%nat -> Q (r !!! j)) ->
  everywhere Q tiles'.
Proof.
  intros Hwf Hwf' Hrow HT H Hr.
  apply (everywhere_unorient Q dir); [assumption|]. rewrite HT.
  apply everywhere_insert; [rewrite orient_length; assumption| |assumption].
  apply everywhere_orient, H.
Qed.

Lemma everywhere_row Q dir row tiles j :
  everywhere Q tiles -> (row < gridHeight)%nat -> (j < gridWidth)%nat ->
  Q ((orient dir tiles !!! row) !!! j).
Proof. intros H Hrow Hj; apply (everywhere_orient Q dir _ H row j Hrow Hj). Qed.

Lemma combinedRow_all (Q : Tile -> Prop) reverse g i np w :
  canCombine reverse g i np ->
  (forall j, (j < gridWidth)%nat -> Q (g !!! j)) ->
  Q (mkTile 0 false (S (S (issued w)))) ->
  Q (mkTile (int_add (Val (g !!! i)) (Val (g !!! i))) true (S (issued w))) ->
  forall j, (j < gridWidth)%nat -> Q (combinedRow g i np w !!! j).
Proof.
  intros Hc Hg H0 H1 j Hj. rewrite (combinedRow_lookup reverse) by assumption.
  repeat case_decide; auto.
Qed.

Lemma slidRow_all (Q : Tile -> Prop) reverse g i np w :
  length g = gridWidth -> canSlide reverse g i np ->
  (forall j, (j < gridWidth)%nat -> Q (g !!! j)) ->
  Q (mkTile 0 false (S (issued w))) ->
  forall j, (j < gridWidth)%nat -> Q (slidRow g i np w !!! j).
Proof.
  intros Hlen Hc Hg H0 j Hj. rewrite (slidRow_lookup reverse) by assumption.
  destruct Hc as ((_ & Hi & _) & _). rewrite Hlen in Hi.
  repeat case_decide; auto.
Qed.

End Invariants.

(** Case analysis on what a row step did. *)
Ltac step_cases Hrow Hwf Hm :=
  let Hwf' := fresh "Hwf'" in
  pose proof (moveRow_wf _ _ _ _ _ _ Hwf Hrow Hm) as Hwf';
  match type of Hm with
  | moveRow ?d _ _ _ = _ => pose proof (wf_row _ _ (orient_wf d _ Hwf) Hrow) as Hlen
  end;
  destruct (moveRow_inv _ _ _ _ _ _ Hwf Hrow Hm)
    as [(Hplan & -> & ->)
       |[(i & np & Hplan & Hc & HT & Hmv & Hpts & ->)
        |(i & np & Hplan & Hc & HT & Hmv & Hpts & ->)]];
  unfold holds, rowMerges in *; rewrite ?Hplan; rewrite ?app_nil_r.

Section Preserved.

Lemma keepsEmpty_preserved e0 dir : preserved (keepsEmpty e0) dir.
Proof.
  intros row log v w v' w' Hrow Hwf [He Hm1] Hm.
  pose proof (total_nonneg emptyOf (v_tiles v) emptyOf_nonneg) as H0.
  step_cases Hrow Hwf Hm; [split; assumption| |];
    unfold keepsEmpty, numEmpty, emptyOf in *;
    rewrite (total_step _ dir row _ _ _ Hwf Hwf' Hrow HT).
  - rewrite (wsum_combinedRow _ (isReverse dir)) by assumption.
    destruct Hc as (_ & Hv & He' & _). rewrite He'; cbn [Val].
    apply Z.eqb_neq in Hv; rewrite Hv.
    destruct (int_add _ _ =? 0); cbn; lia.
  - rewrite (wsum_slidRow _ (isReverse dir)) by assumption.
    pose proof (total_ge_row emptyOf (orient dir (v_tiles v)) row emptyOf_nonneg
                  ltac:(rewrite orient_length; assumption)) as Hge.
    pose proof Hc as ((_ & _ & Hnp) & Hv & He').
    pose proof (wsum_ge_cell emptyOf 0 _ np emptyOf_nonneg Hnp) as Hge'.
    unfold emptyOf in Hge, Hge'; cbn in Hge'.
    rewrite (total_orient (fun t => if Val t =? 0 then 1 else 0)) in Hge by assumption.
    rewrite He' in *; cbn [Val] in *.
    apply Z.eqb_neq in Hv; rewrite Hv. cbn in *; lia.
Qed.

Lemma untouched_preserved t0 w0 dir : preserved (untouched t0 w0) dir.
Proof.
  intros row log v w v' w' Hrow Hwf HP Hm.
  step_cases Hrow Hwf Hm; [exact HP| |]; unfold untouched; congruence.
Qed.

Lemma okTile_zero u : okTile (mkTile 0 false u).
Proof. unfold okTile; cbn; pow2; lia. Qed.

Lemma okTile_double (t : Tile) u :
  okTile t -> Cmb t = false ->
  okTile (mkTile (int_add (Val t) (Val t)) true u)
  /\ int_add (Val t) (Val t) = 2 * Val t.
Proof.
  unfold okTile; intros [H0 H1] Hc; rewrite Hc in H1; cbn.
  rewrite int_add_small by (pow2; lia). pow2; lia.
Qed.

Lemma valid_step dir row v w v' w' :
  (row < gridHeight)%nat -> wf (v_tiles v) -> valid (v_tiles v) ->
  moveRow dir row v w = Some (v', w') -> valid (v_tiles v').
Proof.
  intros Hrow Hwf Hv Hm. unfold valid in *.
  pose proof (fun j => everywhere_row okTile dir row _ j Hv Hrow) as Hg.
  step_cases Hrow Hwf Hm; [assumption| |];
    apply (everywhere_step okTile dir row _ _ _ Hwf Hwf' Hrow HT Hv).
  - apply (combinedRow_all okTile (isReverse dir)); try assumption;
      [apply okTile_zero|].
    apply okTile_double; [apply Hg|]; destruct Hc as ((_ & Hi & _) & _ & _ & ? & _);
      [rewrite <- Hlen; assumption|assumption].
  - apply (slidRow_all okTile (isReverse dir)); try assumption. apply okTile_zero.
Qed.

Lemma keepsSum_preserved s0 dir : preserved (keepsSum s0) dir.
Proof.
  intros row log v w v' w' Hrow Hwf [Hv Hs] Hm.
  split; [eapply valid_step; eassumption|].
  pose proof (fun j => everywhere_row okTile dir row _ j Hv Hrow) as Hg.
  step_cases Hrow Hwf Hm; [assumption| |];
    unfold sumValues, valueOf in *;
    rewrite (total_step _ dir row _ _ _ Hwf Hwf' Hrow HT).
  - rewrite (wsum_combinedRow _ (isReverse dir)) by assumption.
    destruct Hc as ((_ & Hi & _) & _ & He' & Hci & _). rewrite He'; cbn [Val].
    rewrite Hlen in Hi.
    destruct (okTile_double _ 0%nat (Hg i Hi) Hci) as [_ ->]. lia.
  - rewrite (wsum_slidRow _ (isReverse dir)) by assumption.
    destruct Hc as (_ & _ & He'). rewrite He'; cbn [Val]. lia.
Qed.

Lemma keepsSumMod_preserved s0 dir : preserved (keepsSumMod s0) dir.
Proof.
  intros row log v w v' w' Hrow Hwf [k Hs] Hm.
  step_cases Hrow Hwf Hm; [exists k; assumption| |];
    unfold keepsSumMod, sumValues, valueOf in *;
    rewrite (total_step _ dir row _ _ _ Hwf Hwf' Hrow HT).
  - rewrite (wsum_combinedRow _ (isReverse dir)) by assumption.
    destruct Hc as (_ & _ & He' & _). rewrite He'; cbn [Val].
    destruct (int_add_mod (Val ((orient dir (v_tiles v) !!! row) !!! i))
                (Val ((orient dir (v_tiles v) !!! row) !!! i))) as [k' ->].
    exists (k + k'). lia.
  - rewrite (wsum_slidRow _ (isReverse dir)) by assumption.
    destruct Hc as (_ & _ & He'). rewrite He'; cbn [Val]. exists k. lia.
Qed.

Lemma lastMerge_snoc log m : lastMerge (log ++ [m]) = new_val m.
Proof. unfold lastMerge; rewrite last_snoc; reflexivity. Qed.

Lemma pointsInv_preserved dir : preserved pointsInv dir.
Proof.
  intros row log v w v' w' Hrow Hwf (Hv & Hp & Hpos) Hm.
  split; [eapply valid_step; eassumption|].
  pose proof (fun j => everywhere_row okTile dir row _ j Hv Hrow) as Hg.
  step_cases Hrow Hwf Hm; [split; assumption| |].
  - destruct Hc as ((_ & Hi & _) & Hnz & He' & Hci & _). rewrite He' in *.
    rewrite Hlen in Hi.
    destruct (okTile_double _ 0%nat (Hg i Hi) Hci) as [_ Hd].
    destruct (Hg i Hi) as [Hge _].
    rewrite lastMerge_snoc, Hpts; cbn [new_val]. rewrite Hd.
    assert ((0 <? 2 * Val ((orient dir (v_tiles v) !!! row) !!! i)) = true) as ->
      by (apply Z.ltb_lt; lia).
    split; [reflexivity|]. apply Forall_app; split; [assumption|].
    constructor; [cbn; lia|constructor].
  - rewrite Hpts; split; assumption.
Qed.

Lemma sameDraws_preserved w0 dir : preserved (sameDraws w0) dir.
Proof.
  intros row log v w v' w' Hrow Hwf HP Hm.
  step_cases Hrow Hwf Hm; exact HP.
Qed.

End Preserved.

(** ** Drawing a cell *)

Section Draws.

Lemma rand_Intn_eq n w :
  rand_Intn n w =
    Some (Z.to_nat (stream w (drawn w) `mod` Z.of_nat n), advance 1 w).
Proof. reflexivity. Qed.

Lemma draw_pair_eq {A} (k : nat -> nat -> M A) w :
  (x ← rand_Intn gridWidth; y ← rand_Intn gridHeight; k x y) w =
    k (coordAt w 0).1 (coordAt w 0).2 (advance 2 w).
Proof.
  unfold mbind, M_bind; rewrite rand_Intn_eq, rand_Intn_eq.
  unfold coordAt, advance; cbn [stream drawn issued fst snd].
  rewrite Nat.mul_0_r, Nat.add_0_r, (Nat.add_comm (drawn w) 1). reflexivity.
Qed.

Lemma coordAt_range w k :
  ((coordAt w k).1 < gridWidth)%nat /\ ((coordAt w k).2 < gridHeight)%nat.
Proof.
  unfold coordAt, gridWidth, gridHeight, GridSize; cbn [fst snd].
  split; match goal with |- context [?z `mod` ?n] =>
    pose proof (Z.mod_pos_bound z n ltac:(lia)) end; lia.
Qed.

Lemma coordAt_advance w k : coordAt (advance 2 w) k = coordAt w (S k).
Proof.
  unfold coordAt, advance; cbn [stream drawn].
  replace (2 + drawn w + 2 * k)%nat with (drawn w + 2 * S k)%nat by lia.
  reflexivity.
Qed.

Lemma spawnRetry_unfold fuel tiles x y :
  spawnRetry fuel tiles x y =
    if negb (Val (cell tiles x y) =? emptyTile) then
      match fuel with
      | O => spinning
      | S fuel' =>
        x ← rand_Intn gridWidth; y ← rand_Intn gridHeight;
        spawnRetry fuel' tiles x y
      end
    else mret (x, y).
Proof. destruct fuel; reflexivity. Qed.

(** The retry loop of [spawnTile] returns when an empty cell comes up
    within the fuel. *)
Lemma spawnRetry_hit tiles k :
  forall fuel x y w, (k <= fuel)%nat ->
    Val (cell tiles x y) = 0 \/ (exists j, (j < k)%nat /\ isEmptyAt tiles (coordAt w j)) ->
    exists r w', spawnRetry fuel tiles x y w = Some (r, w').
Proof.
  induction k as [|k IH]; intros fuel x y w Hk Hhit; rewrite spawnRetry_unfold.
  - destruct Hhit as [->|(j & Hj & _)]; [|lia]. cbn; eauto.
  - destruct (Val (cell tiles x y) =? emptyTile) eqn:He; cbn [negb]; [cbn; eauto|].
    apply Z.eqb_neq in He. destruct Hhit as [?|(j & Hj & Hjhit)]; [contradiction|].
    destruct fuel as [|fuel]; [lia|]. rewrite draw_pair_eq.
    apply IH; [lia|]. destruct j as [|j]; [left; exact Hjhit|right].
    exists j; split; [lia|]. rewrite coordAt_advance; exact Hjhit.
Qed.

Lemma spawnRetry_spec tiles fuel :
  forall x y w r w', (x < gridWidth)%nat -> (y < gridHeight)%nat ->
    spawnRetry fuel tiles x y w = Some (r, w') ->
    isEmptyAt tiles r /\ (r.1 < gridWidth)%nat /\ (r.2 < gridHeight)%nat
    /\ stream w' = stream w /\ issued w' = issued w.
Proof.
  induction fuel as [|fuel IH]; intros x y w r w' Hx Hy; rewrite spawnRetry_unfold;
    (destruct (Val (cell tiles x y) =? emptyTile) eqn:He; cbn [negb];
     [intros [= <- <-]; apply Z.eqb_eq in He; unfold isEmptyAt; cbn; auto|]).
  - discriminate.
  - rewrite draw_pair_eq. intros Hr.
    destruct (coordAt_range w 0) as [Hx' Hy'].
    destruct (IH _ _ _ _ _ Hx' Hy' Hr) as (H1 & H2 & H3 & H4 & H5). auto.
Qed.

Lemma newTileVal_eq w :
  exists v, (v = 2 \/ v = 4) /\ newTileVal w = Some (v, advance 1 w).
Proof.
  unfold newTileVal, rand_Float64, draw, mbind, M_bind, mret, M_ret, advance.
  destruct (Qle_bool _ _); eauto.
Qed.

End Draws.

(** ** Spawning a tile *)

Section Spawn.

Lemma alter_as_insert {A} `{Inhabited A} (f : A -> A) (i : nat) (l : list A) :
  alter f i l = <[i := f (l !!! i)]> l.
Proof.
  revert i; induction l as [|a l IH]; intros [|i]; simpl; try reflexivity.
  f_equal; apply IH.
Qed.

Lemma total_alterCell f h x y t :
  (x < length t)%nat -> (y < length (t !!! x))%nat ->
  total f (alterCell h x y t) = total f t - f y (cell t x y) + f y (h (cell t x y)).
Proof.
  intros Hx Hy; unfold alterCell, cell.
  rewrite (alter_as_insert (alter h y)), total_insert by assumption.
  rewrite (alter_as_insert h), wsum_insert by assumption.
  cbn; lia.
Qed.

Lemma alterCell_wf h x y t : wf t -> wf (alterCell h x y t).
Proof.
  intros [Hlen Hall]; unfold alterCell; split; [rewrite length_alter; exact Hlen|].
  apply Forall_alter; [exact Hall|]. intros r _ Hr; rewrite length_alter; exact Hr.
Qed.

Lemma alterCell_compose h1 h2 x y t :
  alterCell h2 x y (alterCell h1 x y t) = alterCell (h2 ∘ h1) x y t.
Proof.
  unfold alterCell. rewrite list_alter_alter_eq.
  apply list_alter_ext; [|reflexivity]. intros r _; cbn.
  rewrite list_alter_alter_eq; reflexivity.
Qed.

Lemma wsum_empty_exists k g :
  1 <= wsum emptyOf k g -> exists i, (i < length g)%nat /\ Val (g !!! i) = 0.
Proof.
  revert k; induction g as [|t g IH]; intros k; cbn [wsum]; [lia|].
  unfold emptyOf at 1. destruct (Val t =? 0) eqn:He.
  - intros _; exists 0%nat; apply Z.eqb_eq in He; cbn; split; [lia|exact He].
  - intros Hs; destruct (IH (S k) ltac:(lia)) as (i & Hi & Hv).
    exists (S i); cbn; split; [lia|exact Hv].
Qed.

Lemma total_empty_exists t :
  1 <= total emptyOf t ->
  exists x y, (x < length t)%nat /\ (y < length (t !!! x))%nat /\ Val (cell t x y) = 0.
Proof.
  unfold cell; induction t as [|r t IH]; cbn [total foldr]; [lia|].
  destruct (Z_lt_le_dec (wsum emptyOf 0 r) 1) as [Hlt|Hge].
  - intros Hs. destruct (IH ltac:(unfold total; lia)) as (x & y & Hx & Hy & Hv).
    exists (S x), y; cbn; repeat split; [lia|assumption|exact Hv].
  - intros _. destruct (wsum_empty_exists 0 r Hge) as (y & Hy & Hv).
    exists 0%nat, y; cbn; repeat split; [lia|exact Hy|exact Hv].
Qed.

Lemma numEmpty_exists t :
  wf t -> 1 <= numEmpty t ->
  exists x y, (x < gridWidth)%nat /\ (y < gridHeight)%nat /\ Val (cell t x y) = 0.
Proof.
  intros Hwf Hs. destruct (total_empty_exists t Hs) as (x & y & Hx & Hy & Hv).
  pose proof Hwf as [Hlen _]. rewrite Hlen in Hx.
  rewrite (wf_row t x Hwf Hx) in Hy. eauto.
Qed.

Lemma spawnTile_spec fuel g w g' w' :
  spawnTile fuel g w = Some (g', w') ->
  exists p v,
    isEmptyAt (Tiles g) p /\ (p.1 < gridWidth)%nat /\ (p.2 < gridHeight)%nat /\
    (v = 2 \/ v = 4) /\
    Tiles g' = alterCell (setUUID (S (issued w)) ∘ setVal v) p.1 p.2 (Tiles g) /\
    LastMove g' = LastMove g.
Proof.
  unfold spawnTile. rewrite draw_pair_eq. unfold mbind at 1, M_bind at 1.
  destruct (coordAt_range w 0) as [Hx Hy].
  destruct (spawnRetry _ _ _ _ _) as [[[x y] w1]|] eqn:Hr; [|discriminate].
  destruct (spawnRetry_spec _ _ _ _ _ _ _ Hx Hy Hr) as (He & Hx' & Hy' & _ & Hi).
  destruct (newTileVal_eq w1) as (v & Hv & Hn).
  unfold mbind, M_bind; rewrite Hn. unfold uuid_NewV7, mret, M_ret; cbn.
  intros [= <- <-]; exists (x, y), v; cbn [fst snd Tiles LastMove].
  rewrite alterCell_compose, Hi. auto 10.
Qed.

Lemma spawnTile_total fuel g w k :
  (k <= fuel)%nat -> isEmptyAt (Tiles g) (coordAt w k) ->
  exists r, spawnTile fuel g w = Some r.
Proof.
  intros Hk Hhit. unfold spawnTile. rewrite draw_pair_eq. unfold mbind at 1, M_bind at 1.
  destruct (spawnRetry_hit (Tiles g) k fuel (coordAt w 0).1 (coordAt w 0).2
              (advance 2 w) Hk) as ([x y] & w1 & ->).
  - destruct k as [|k]; [left; exact Hhit|right].
    exists k; split; [lia|]. rewrite coordAt_advance; exact Hhit.
  - destruct (newTileVal_eq w1) as (v & Hv & Hn).
    unfold mbind, M_bind; rewrite Hn. unfold uuid_NewV7, mret, M_ret; cbn. eauto.
Qed.

Lemma Move_unfold fuel dir g w :
  Move fuel dir g w =
    match move fuel dir g w with
    | Some (g1, didMove, pts, w1) =>
        if didMove : bool then
          match spawnTile fuel g1 w1 with
          | Some (g2, w2) => Some (mkGrid (Tiles g2) dir, pts, w2)
          | None => None
          end
        else Some (mkGrid (Tiles g1) dir, pts, w1)
    | None => None
    end.
Proof.
  unfold Move, mbind, M_bind.
  destruct (move fuel dir g w) as [[[[g1 didMove] pts] w1]|]; [|reflexivity].
  destruct didMove; [|reflexivity].
  destruct (spawnTile fuel g1 w1) as [[g2 w2]|]; reflexivity.
Qed.

End Spawn.

(** ** Fuel *)

Section Fuel.

Lemma both_preserved P Q dir :
  preserved P dir -> preserved Q dir -> preserved (both P Q) dir.
Proof.
  intros HP HQ row log v w v' w' Hrow Hwf [H1 H2] Hm; split;
    [eapply HP|eapply HQ]; eassumption.
Qed.

Lemma moveLoop_more fuel :
  forall dir tiles moved pts w r k,
    moveLoop fuel dir tiles moved pts w = Some r ->
    moveLoop (fuel + k) dir tiles moved pts w = Some r
    /\ loopMerges (fuel + k) dir tiles moved pts w
       = loopMerges fuel dir tiles moved pts w.
Proof.
  induction fuel as [|fuel IH]; intros dir tiles moved pts w r k; [discriminate|].
  cbn [moveLoop loopMerges Nat.add]; unfold mbind, M_bind.
  destruct (forEach _ _ _ w) as [[v w']|]; [|discriminate].
  destruct (negb (v_movedThisTurn v)); [auto|].
  intros Hr; destruct (IH _ _ _ _ _ _ k Hr) as [-> ->]; auto.
Qed.

Lemma move_more fuel dir g w r k :
  move fuel dir g w = Some r ->
  move (fuel + k) dir g w = Some r /\ merges (fuel + k) dir g w = merges fuel dir g w.
Proof.
  rewrite !move_unfold; unfold merges.
  destruct (moveLoop fuel _ _ _ _ _) as [r'|] eqn:Hl; [|discriminate].
  destruct (moveLoop_more _ _ _ _ _ _ _ k Hl) as [-> ->]; auto.
Qed.

(** Whatever [move] returns, with whatever fuel, satisfies every preserved
    invariant that holds when it starts. *)
Lemma move_result (P : Inv) fuel dir g w g1 moved pts w1 :
  preserved P dir -> wf (Tiles g) ->
  P [] (clearedTiles (Tiles g)) false 0 w ->
  move fuel dir g w = Some (g1, moved, pts, w1) ->
  wf (Tiles g1) /\ LastMove g1 = LastMove g /\
  P (merges fuel dir g w) (Tiles g1) moved pts w1.
Proof.
  intros Hstep Hwf HP Hm.
  destruct (move_rule P dir g w Hstep Hwf HP)
    as (tiles' & moved' & pts' & w' & Hwf' & Hrun).
  destruct (move_more _ _ _ _ _ enoughFuel Hm) as [Hm' Hlog].
  destruct (Hrun (fuel + enoughFuel)%nat ltac:(lia)) as [Hc HP'].
  rewrite Hm' in Hc; injection Hc as -> -> -> ->.
  rewrite Hlog in HP'. auto.
Qed.

Lemma move_total dir g w :
  wf (Tiles g) ->
  exists r, forall fuel, (enoughFuel <= fuel)%nat -> move fuel dir g w = Some r.
Proof.
  intros Hwf.
  destruct (move_rule (fun _ _ _ _ _ => True) dir g w) as
    (tiles' & moved' & pts' & w' & _ & Hrun); [intros ? **; exact I|assumption|exact I|].
  eexists; intros fuel Hfuel; apply Hrun, Hfuel.
Qed.

End Fuel.

(** ** Resetting *)

Section ResetLemmas.

Lemma NewTiles_eq w : NewTiles w = Some (newTilesAt (issued w), issue 16 w).
Proof.
  unfold newTilesAt; cbn.
  rewrite !Nat.add_0_r, <- !plus_n_Sm, !Nat.add_0_r. reflexivity.
Qed.

Lemma newTileVal_unit w :
  newTileVal w = Some ((if Qle_bool (9 # 10) (unitDraw w) then 4 else 2), advance 1 w).
Proof. reflexivity. Qed.

Lemma resetRetry_unfold fuel tile1 tile2 :
  resetRetry fuel tile1 tile2 =
    if bool_decide (tile1 = tile2) then
      match fuel with
      | O => spinning
      | S fuel' =>
        x ← rand_Intn gridWidth; y ← rand_Intn gridHeight;
        resetRetry fuel' tile1 (x, y)
      end
    else mret tile2.
Proof. destruct fuel; reflexivity. Qed.

Lemma resetRetry_hit tile1 k :
  forall fuel tile2 w, (k <= fuel)%nat ->
    (exists j, (j <= k)%nat /\ attempt tile2 w j <> tile1) ->
    exists r w', resetRetry fuel tile1 tile2 w = Some (r, w').
Proof.
  induction k as [|k IH]; intros fuel tile2 w Hk (j & Hj & Hhit);
    rewrite resetRetry_unfold; case_bool_decide as He; try (cbn; eauto; fail).
  - destruct j; [cbn in Hhit; congruence|lia].
  - destruct fuel as [|fuel]; [lia|]. rewrite draw_pair_eq.
    apply IH; [lia|]. destruct j as [|j]; [cbn in Hhit; congruence|].
    exists j; split; [lia|]. destruct j as [|j]; cbn [attempt] in *.
    + destruct (coordAt w 0); exact Hhit.
    + rewrite coordAt_advance; exact Hhit.
Qed.

Lemma resetRetry_spec tile1 fuel :
  forall tile2 w r w',
    resetRetry fuel tile1 tile2 w = Some (r, w') ->
    exists n, r = attempt tile2 w n /\ r <> tile1 /\ w' = advance (2 * n) w /\
      forall j, (j < n)%nat -> attempt tile2 w j = tile1.
Proof.
  induction fuel as [|fuel IH]; intros tile2 w r w'; rewrite resetRetry_unfold;
    case_bool_decide as He;
    try (intros [= <- <-]; exists 0%nat; cbn;
         repeat split; [congruence|destruct w; reflexivity|intros; lia]).
  - discriminate.
  - rewrite draw_pair_eq; intros Hr.
    destruct (IH _ _ _ _ Hr) as (n & Hn & Hne & Hw & Hall).
    exists (S n); split; [|split; [exact Hne|split]].
    + rewrite Hn; destruct n as [|n]; cbn [attempt];
        [destruct (coordAt w 0); reflexivity|apply coordAt_advance].
    + rewrite Hw; unfold advance; cbn [stream drawn issued]; f_equal; lia.
    + intros [|j] Hj; [cbn; congruence|].
      specialize (Hall j ltac:(lia)). destruct j as [|j]; cbn [attempt] in *.
      * destruct (coordAt w 0); exact Hall.
      * rewrite <- coordAt_advance; exact Hall.
Qed.

End ResetLemmas.

Section ResetSpec.

Lemma coordAt_advance_add w n k :
  coordAt (advance (2 * n) w) k = coordAt w (n + k).
Proof.
  unfold coordAt, advance; cbn [stream drawn].
  replace (2 * n + drawn w + 2 * k)%nat with (drawn w + 2 * (n + k))%nat by lia.
  reflexivity.
Qed.

Lemma pair_eta {A B} (p : A * B) : (p.1, p.2) = p.
Proof. destruct p; reflexivity. Qed.

Lemma Reset_unfold fuel g w :
  Reset fuel g w =
    match resetRetry fuel (coordAt w 0) (coordAt w 1) (advance 4 (issue 16 w)) with
    | Some (tile2, w2) =>
        let v1 := if Qle_bool (9 # 10) (unitDraw w2) then 4 else 2 in
        let v2 := if Qle_bool (9 # 10) (unitDraw (advance 1 w2)) then 4 else 2 in
        Some (mkGrid
                (alterCell (setVal v2) tile2.1 tile2.2
                   (alterCell (setVal v1) (coordAt w 0).1 (coordAt w 0).2
                      (newTilesAt (issued w))))
                (LastMove g), advance 2 w2)
    | None => None
    end.
Proof.
  unfold Reset. unfold mbind at 1, M_bind at 1. rewrite NewTiles_eq.
  rewrite draw_pair_eq, draw_pair_eq.
  change (coordAt (issue 16 w) 0) with (coordAt w 0).
  change (advance 2 (issue 16 w)) with (advance (2 * 1) (issue 16 w)).
  rewrite coordAt_advance_add.
  change (coordAt (issue 16 w) (1 + 0)) with (coordAt w 1).
  rewrite !pair_eta. unfold mbind at 1, M_bind at 1.
  change (advance 2 (advance (2 * 1) (issue 16 w))) with (advance 4 (issue 16 w)).
  destruct (resetRetry _ _ _ _) as [[tile2 w2]|]; [|reflexivity].
  reflexivity.
Qed.

Lemma attempt_Reset w n :
  attempt (coordAt w 1) (advance 4 (issue 16 w)) n = coordAt w (S n).
Proof.
  destruct n as [|n]; [reflexivity|]. cbn [attempt].
  change (advance 4 (issue 16 w)) with (advance (2 * 2) (issue 16 w)).
  rewrite coordAt_advance_add. reflexivity.
Qed.

(** What [Reset] returns: the first tile at the first pair of coordinates
    drawn, the second at the first later pair that differs from it, each
    valued by [newTileVal] from its own draw. *)
Lemma Reset_spec fuel g w g' w' :
  Reset fuel g w = Some (g', w') ->
  exists k,
    (1 <= k)%nat /\ coordAt w k <> coordAt w 0 /\
    (forall j, (1 <= j < k)%nat -> coordAt w j = coordAt w 0) /\
    let wv := advance (2 * (k + 1)) (issue 16 w) in
    let v1 := if Qle_bool (9 # 10) (unitDraw wv) then 4 else 2 in
    let v2 := if Qle_bool (9 # 10) (unitDraw (advance 1 wv)) then 4 else 2 in
    Tiles g' =
      alterCell (setVal v2) (coordAt w k).1 (coordAt w k).2
        (alterCell (setVal v1) (coordAt w 0).1 (coordAt w 0).2
           (newTilesAt (issued w))) /\
    LastMove g' = LastMove g /\ w' = advance 2 wv.
Proof.
  rewrite Reset_unfold.
  destruct (resetRetry _ _ _ _) as [[tile2 w2]|] eqn:Hr; [|discriminate].
  destruct (resetRetry_spec _ _ _ _ _ _ Hr) as (n & Hn & Hne & Hw & Hall).
  rewrite attempt_Reset in Hn. cbv zeta. intros [= <- <-].
  exists (S n). split; [lia|]. split; [congruence|]. split.
  - intros [|j] Hj; [lia|]. rewrite <- attempt_Reset. apply Hall; lia.
  - assert (w2 = advance (2 * (S n + 1)) (issue 16 w)) as ->.
    { rewrite Hw; unfold advance, issue; cbn [stream drawn issued]; f_equal; lia. }
    rewrite Hn; cbn [Tiles LastMove]. auto.
Qed.

Lemma Reset_total fuel g w k :
  (k <= fuel)%nat -> coordAt w (S k) <> coordAt w 0 ->
  exists r, Reset fuel g w = Some r.
Proof.
  intros Hk Hhit. rewrite Reset_unfold.
  destruct (resetRetry_hit (coordAt w 0) k fuel (coordAt w 1)
              (advance 4 (issue 16 w)) Hk) as (r & w2 & ->); [|cbv zeta; eauto].
  exists k; split; [lia|]. rewrite attempt_Reset; exact Hhit.
Qed.

End ResetSpec.

(** ** Examples used below *)

Section Termination.

Lemma coordAt_same w w' k :
  stream w' = stream w -> drawn w' = drawn w -> coordAt w' k = coordAt w k.
Proof. unfold coordAt; intros -> ->; reflexivity. Qed.

Lemma pass_closer dir tiles moved pts w :
  wf tiles ->
  exists v w',
    forEach (seq 0 gridHeight) (moveRow dir) (mkVars tiles false moved pts) w
      = Some (v, w') /\
    0 <= potential dir (v_tiles v) /\
    (v_movedThisTurn v = true -> potential dir (v_tiles v) < potential dir tiles).
Proof.
  intros Hwf.
  destruct (pass_rule (fun _ _ _ _ _ => True) dir (fun _ _ _ _ _ _ _ _ _ _ => I)
              (seq 0 gridHeight) [] (mkVars tiles false moved pts) w
              (seq_range _) Hwf I)
    as (v & w' & Hf & Hwf' & _ & Hcase).
  exists v, w'; split; [exact Hf|].
  split; [apply potential_bounds, Hwf'|].
  destruct Hcase as [(-> & _)|(_ & Hlt)]; [discriminate|intros _; exact Hlt].
Qed.

Lemma move_leaves_room fuel dir g w g1 pts w1 :
  wf (Tiles g) -> move fuel dir g w = Some (g1, true, pts, w1) ->
  wf (Tiles g1) /\ stream w1 = stream w /\ drawn w1 = drawn w /\
  exists x y, (x < gridWidth)%nat /\ (y < gridHeight)%nat /\
    Val (cell (Tiles g1) x y) = 0.
Proof.
  intros Hwf Hm.
  destruct (move_result (both (keepsEmpty 0) (sameDraws w)) fuel dir g w g1 true pts w1)
    as (Hwf1 & _ & [[_ He] [Hs Hd]]); try assumption.
  - apply both_preserved; [apply keepsEmpty_preserved|apply sameDraws_preserved].
  - split; [split; [apply total_nonneg, emptyOf_nonneg|discriminate]|split; reflexivity].
  - split; [assumption|]. split; [assumption|]. split; [assumption|].
    apply numEmpty_exists; auto.
Qed.

Lemma Move_total dir g w :
  wf (Tiles g) -> reachesEveryCell w ->
  exists fuel0, forall fuel, (fuel0 <= fuel)%nat ->
    exists r, Move fuel dir g w = Some r.
Proof.
  intros Hwf Hfair.
  destruct (move_total dir g w Hwf) as ([[[g1 moved] pts] w1] & Hrun).
  destruct moved.
  - destruct (move_leaves_room _ _ _ _ _ _ _ Hwf (Hrun enoughFuel ltac:(lia)))
      as (Hwf1 & Hs & Hd & x & y & Hx & Hy & Hv).
    destruct (Hfair x y Hx Hy) as (k & Hk).
    exists (enoughFuel + k)%nat; intros fuel Hfuel.
    rewrite Move_unfold, (Hrun fuel) by lia.
    destruct (spawnTile_total fuel g1 w1 k ltac:(lia)) as ([g2 w2] & ->); [|eauto].
    unfold isEmptyAt; rewrite (coordAt_same w w1), Hk by assumption. exact Hv.
  - exists enoughFuel; intros fuel Hfuel.
    rewrite Move_unfold, (Hrun fuel) by lia. eauto.
Qed.

Lemma Reset_returns g w :
  reachesEveryCell w ->
  exists fuel0, forall fuel, (fuel0 <= fuel)%nat ->
    exists r, Reset fuel g w = Some r.
Proof.
  intros Hfair.
  assert (exists k, coordAt w k <> coordAt w 0) as (k & Hk).
  { destruct (decide (coordAt w 0 = (0, 0)%nat)) as [He|Hne].
    - destruct (Hfair 1%nat 0%nat) as (k & Hk);
        [unfold gridWidth, GridSize; lia|unfold gridHeight, GridSize; lia|].
      exists k; congruence.
    - destruct (Hfair 0%nat 0%nat) as (k & Hk);
        [unfold gridWidth, GridSize; lia|unfold gridHeight, GridSize; lia|].
      exists k; congruence. }
  destruct k as [|k]; [contradiction Hk; reflexivity|].
  exists k; intros fuel Hfuel. apply (Reset_total fuel g w k); assumption.
Qed.

End Termination.

(** C10. [Move] terminates on every grid and direction.  The loop of
    [move] makes finitely many passes: a pass that moved a tile strictly
    lowers the distance the tiles still have to travel, which is never
    negative, so 25 passes are enough on a 4 by 4 grid.  Once a tile moved
    or merged there is an empty cell, so the retry loop of [spawnTile]
    returns as soon as the generator yields an empty cell, and the retry
    loop of [Reset] as soon as it yields a second, different cell: both do
    for a generator that reaches every cell. *)
Theorem Move_terminates : forall dir g w,
  wf (Tiles g) ->
  (forall tiles moved pts w0, wf tiles ->
     exists v w',
       forEach (seq 0 gridHeight) (moveRow dir) (mkVars tiles false moved pts) w0
         = Some (v, w') /\
       0 <= potential dir (v_tiles v) /\
       (v_movedThisTurn v = true ->
        potential dir (v_tiles v) < potential dir tiles)) /\
  (exists r, forall fuel, (enoughFuel <= fuel)%nat -> move fuel dir g w = Some r) /\
  (forall fuel g1 pts w1, move fuel dir g w = Some (g1, true, pts, w1) ->
     exists x y, (x < gridWidth)%nat /\ (y < gridHeight)%nat /\
       Val (cell (Tiles g1) x y) = 0) /\
  (reachesEveryCell w ->
     exists fuel0, forall fuel, (fuel0 <= fuel)%nat ->
       exists r, Move fuel dir g w = Some r) /\
  (reachesEveryCell w ->
     exists fuel0, forall fuel, (fuel0 <= fuel)%nat ->
       exists r, Reset fuel g w = Some r).
Proof.
  intros dir g w Hwf. split; [|split; [|split; [|split]]].
  - intros tiles moved pts w0 Hwf0; apply pass_closer, Hwf0.
  - apply move_total, Hwf.
  - intros fuel g1 pts w1 Hm.
    destruct (move_leaves_room _ _ _ _ _ _ _ Hwf Hm) as (_ & _ & _ & H); exact H.
  - apply Move_total, Hwf.
  - apply Reset_returns.
Qed.

Lemma cyclingWorld_reaches : reachesEveryCell cyclingWorld.
Proof.
  intros x y Hx Hy; exists (4 * x + y)%nat.
  unfold gridWidth, gridHeight, GridSize in *.
  destruct x as [|[|[|[|x]]]]; [..|lia];
    (destruct y as [|[|[|[|y]]]]; [..|lia]); reflexivity.
Qed.

Lemma rowGrid_wf : wf (Tiles rowGrid).
Proof. apply wf_of_cells. Qed.

Lemma Move_terminates_witness :
  (exists r, forall fuel, (enoughFuel <= fuel)%nat ->
     move fuel DirLeft rowGrid cyclingWorld = Some r) /\
  (exists fuel0, forall fuel, (fuel0 <= fuel)%nat ->
     exists r, Move fuel DirLeft rowGrid cyclingWorld = Some r) /\
  (exists fuel0, forall fuel, (fuel0 <= fuel)%nat ->
     exists r, Reset fuel rowGrid cyclingWorld = Some r).
Proof.
  destruct (Move_terminates DirLeft rowGrid cyclingWorld rowGrid_wf)
    as (_ & Hm & _ & HM & HR).
  split; [exact Hm|].
  split; [exact (HM cyclingWorld_reaches)|exact (HR cyclingWorld_reaches)].
Defined.

(** C5. On the row [2, 2, 4, 0] the move to the left gives [4, 4, 0, 0] and
    4 points: the 4 made by the merge does not merge again with the 4 that
    was there.  The same move on the result gives [8, 0, 0, 0] and 8
    points. *)
Theorem row_2240_left : forall w k,
  exists g1 w1 g2 w2,
    move (enoughFuel + k) DirLeft rowGrid w = Some (g1, true, 4, w1) /\
    map Val (Tiles g1 !!! 0%nat) = [4; 4; 0; 0] /\
    move (enoughFuel + k) DirLeft g1 w1 = Some (g2, true, 8, w2) /\
    map Val (Tiles g2 !!! 0%nat) = [8; 0; 0; 0].
Proof.
  intros [s d n] k.
  set (r1 := move enoughFuel DirLeft rowGrid (mkWorld s d n)).
  assert (E1 : move enoughFuel DirLeft rowGrid (mkWorld s d n) = r1) by reflexivity.
  vm_compute in r1; subst r1.
  eexists _, _, _, _.
  split; [exact (proj1 (move_more _ _ _ _ _ k E1))|].
  split; [reflexivity|].
  match goal with |- move _ _ ?g1 ?w1 = _ /\ _ =>
    set (r2 := move enoughFuel DirLeft g1 w1);
    assert (E2 : move enoughFuel DirLeft g1 w1 = r2) by reflexivity;
    vm_compute in r2; subst r2
  end.
  split; [exact (proj1 (move_more _ _ _ _ _ k E2))|reflexivity].
Qed.

(** ** The sum of the values *)

Section Mass.

Lemma cell_alterCell h x y t i j :
  (x < length t)%nat -> (y < length (t !!! x))%nat ->
  cell (alterCell h x y t) i j =
    if decide ((i, j) = (x, y)) then h (cell t x y) else cell t i j.
Proof.
  intros Hx Hy; unfold cell, alterCell.
  destruct (decide (i = x)) as [->|Hi].
  - rewrite list_lookup_total_alter_eq by assumption.
    destruct (decide (j = y)) as [->|Hj].
    + rewrite list_lookup_total_alter_eq by assumption.
      rewrite decide_True by reflexivity. reflexivity.
    + rewrite list_lookup_total_alter_ne by congruence.
      rewrite decide_False by congruence. reflexivity.
  - rewrite list_lookup_total_alter_ne by congruence.
    rewrite decide_False by congruence. reflexivity.
Qed.

Lemma valsOf_cleared t : wf t -> valsOf (clearedTiles t) = valsOf t.
Proof.
  intros H; rewrite clearedTiles_map by assumption. unfold valsOf.
  rewrite map_map. apply map_ext; intros r. rewrite map_map. reflexivity.
Qed.

Lemma total_valsOf (f : Z -> Z) t t' :
  valsOf t = valsOf t' ->
  total (fun _ x => f (Val x)) t = total (fun _ x => f (Val x)) t'.
Proof.
  unfold valsOf; revert t'; induction t as [|r t IH]; intros [|r' t'] H;
    try discriminate; [reflexivity|].
  injection H as Hr Ht. cbn [total foldr]. unfold total in IH; rewrite (IH _ Ht).
  f_equal. clear -Hr. generalize 0%nat.
  revert r' Hr; induction r as [|x r IHr]; intros [|x' r'] Hr n; try discriminate;
    [reflexivity|].
  injection Hr as Hx Hr. cbn [wsum]. rewrite Hx, (IHr _ Hr). reflexivity.
Qed.

Lemma sumValues_valsOf t t' : valsOf t = valsOf t' -> sumValues t = sumValues t'.
Proof. apply (total_valsOf (fun z => z)). Qed.

Lemma potential_valsOf dir t t' :
  wf t -> wf t' -> valsOf t = valsOf t' -> potential dir t = potential dir t'.
Proof.
  intros H H' Hv.
  destruct (wf_cells t H) as
    (a0 & a1 & a2 & a3 & b0 & b1 & b2 & b3 & c0 & c1 & c2 & c3
     & d0 & d1 & d2 & d3 & ->).
  destruct (wf_cells t' H') as
    (a0' & a1' & a2' & a3' & b0' & b1' & b2' & b3' & c0' & c1' & c2' & c3'
     & d0' & d1' & d2' & d3' & ->).
  injection Hv; intros.
  unfold potential, orient; destruct (vertical dir); cbn; unfold distOf;
    repeat match goal with H : Val _ = Val _ |- _ => rewrite H; clear H end;
    reflexivity.
Qed.

Lemma closer_preserved dir p0 : preserved (closer dir p0) dir.
Proof.
  intros row log v w v' w' Hrow Hwf [Hle Hlt] Hm.
  destruct (moveRow_base dir row v w Hwf Hrow) as (v1 & w1 & Hm1 & _ & Hcase).
  rewrite Hm in Hm1; injection Hm1 as <- <-. unfold holds, closer in *.
  destruct Hcase as [(-> & _ & _)|(_ & _ & Hp)]; [auto|].
  split; [lia|intros _; lia].
Qed.

Lemma spawn_adds g1 g' p v u :
  wf g1 -> (p.1 < gridWidth)%nat -> (p.2 < gridHeight)%nat -> isEmptyAt g1 p ->
  g' = alterCell (setUUID u ∘ setVal v) p.1 p.2 g1 ->
  spawnedAt g1 g' p v /\ sumValues g' = sumValues g1 + v.
Proof.
  intros Hwf Hx Hy He ->. pose proof Hwf as [Hlen _].
  assert (Hx' : (p.1 < length g1)%nat) by (rewrite Hlen; exact Hx).
  assert (Hy' : (p.2 < length (g1 !!! p.1))%nat) by (rewrite wf_row; assumption).
  split.
  - split; [assumption|]. split; [assumption|]. split; [exact He|]. split.
    + rewrite cell_alterCell, decide_True by (assumption || reflexivity). reflexivity.
    + intros i j Hne. rewrite cell_alterCell, decide_False by
        (assumption || (destruct p; exact Hne)). reflexivity.
  - unfold sumValues. rewrite total_alterCell by assumption.
    unfold isEmptyAt in He. unfold valueOf; cbn. lia.
Qed.

End Mass.

Lemma rowGrid_inRange : inRange (Tiles rowGrid).
Proof. repeat (constructor; try (cbn; pow2; lia)). Qed.

(** C3. Mass conservation.  [move] keeps the sum of the values: a slide
    changes no value and a merge replaces [v, v] by [2 v].  The sum is
    kept exactly on the grids whose values are in [[0, 2^62)], where no sum
    of two equal tiles leaves the range of [int], and up to a multiple of
    [2^64] on any grid.  When a tile moved, the values of the board changed
    and [Move] puts the spawned tile, valued 2 or 4, in an empty cell, so
    the sum grows by exactly that value; when no tile moved, the values
    and their sum are what they were. *)
Theorem mass_conservation : forall fuel dir g w g' pts w',
  wf (Tiles g) ->
  Move fuel dir g w = Some (g', pts, w') ->
  exists g1 didMove w1,
    move fuel dir g w = Some (g1, didMove, pts, w1) /\
    (exists k, sumValues (Tiles g1) = sumValues (Tiles g) + k * 2 ^ 64) /\
    (inRange (Tiles g) -> sumValues (Tiles g1) = sumValues (Tiles g)) /\
    if didMove : bool then
      valsOf (Tiles g1) <> valsOf (Tiles g) /\
      exists p v, (v = 2 \/ v = 4) /\ spawnedAt (Tiles g1) (Tiles g') p v /\
        sumValues (Tiles g') = sumValues (Tiles g1) + v /\
        (inRange (Tiles g) -> sumValues (Tiles g') = sumValues (Tiles g) + v)
    else
      valsOf (Tiles g') = valsOf (Tiles g) /\
      sumValues (Tiles g') = sumValues (Tiles g).
Proof.
  intros fuel dir g w g' pts w' Hwf HM.
  rewrite Move_unfold in HM.
  destruct (move fuel dir g w) as [[[[g1 didMove] pts1] w1]|] eqn:Hm; [|discriminate].
  pose proof (valsOf_cleared _ Hwf) as Hvc.
  pose proof (clearedTiles_wf _ Hwf) as Hwfc.
  destruct (move_result
              (both (keepsSumMod (sumValues (Tiles g)))
                 (both (untouched (clearedTiles (Tiles g)) w)
                    (closer dir (potential dir (Tiles g)))))
              fuel dir g w g1 didMove pts1 w1)
    as (Hwf1 & _ & [Hmod [Hun [_ Hcl]]]); try assumption.
  { apply both_preserved; [apply keepsSumMod_preserved|].
    apply both_preserved; [apply untouched_preserved|apply closer_preserved]. }
  { split; [exists 0; rewrite (sumValues_valsOf _ _ Hvc); lia|].
    split; [intros _; auto|].
    split; [|discriminate].
    rewrite (potential_valsOf dir _ _ Hwfc Hwf Hvc); lia. }
  assert (Hsum : inRange (Tiles g) -> sumValues (Tiles g1) = sumValues (Tiles g)).
  { intros Hrange.
    destruct (move_result (keepsSum (sumValues (Tiles g))) fuel dir g w g1 didMove
                pts1 w1 (keepsSum_preserved _ dir) Hwf) as (_ & _ & [_ Hs]);
      [|assumption|exact Hs].
    split; [apply inRange_valid; assumption|apply sumValues_valsOf, Hvc]. }
  exists g1, didMove, w1. destruct didMove.
  - destruct (spawnTile fuel g1 w1) as [[g2 w2]|] eqn:Hs; [|discriminate].
    injection HM as <- <- <-.
    split; [reflexivity|]. split; [exact Hmod|]. split; [exact Hsum|]. split.
    + intros Hv. specialize (Hcl eq_refl).
      rewrite (potential_valsOf dir _ _ Hwf1 Hwf Hv) in Hcl. lia.
    + destruct (spawnTile_spec _ _ _ _ _ Hs) as (p & v & He & Hx & Hy & Hv & Ht & _).
      destruct (spawn_adds _ _ p v _ Hwf1 Hx Hy He Ht) as [Hsp Hadd].
      exists p, v. cbn [Tiles].
      split; [exact Hv|]. split; [exact Hsp|]. split; [exact Hadd|].
      intros Hrange; rewrite Hadd, (Hsum Hrange); reflexivity.
  - injection HM as <- <- <-.
    split; [reflexivity|]. split; [exact Hmod|]. split; [exact Hsum|].
    destruct (Hun eq_refl) as (Ht & _). cbn [Tiles].
    split; [rewrite Ht; exact Hvc|].
    apply sumValues_valsOf. rewrite Ht; exact Hvc.
Qed.

Lemma mass_conservation_witness :
  exists g' pts w',
    Move enoughFuel DirLeft rowGrid cyclingWorld = Some (g', pts, w') /\
    map Val (Tiles g' !!! 0%nat) = [4; 4; 2; 0] /\
    exists g1 w1,
      move enoughFuel DirLeft rowGrid cyclingWorld = Some (g1, true, pts, w1) /\
      sumValues (Tiles g1) = sumValues (Tiles rowGrid).
Proof.
  set (r := Move enoughFuel DirLeft rowGrid cyclingWorld).
  assert (E : Move enoughFuel DirLeft rowGrid cyclingWorld = r) by reflexivity.
  vm_compute in r; subst r.
  eexists _, _, _. split; [exact E|]. split; [reflexivity|].
  destruct (mass_conservation _ _ _ _ _ _ _ rowGrid_wf E)
    as (g1 & didMove & w1 & Hm & _ & Hs & _).
  exists g1, w1. split; [|exact (Hs rowGrid_inRange)].
  rewrite Hm. set (r := move enoughFuel DirLeft rowGrid cyclingWorld) in Hm.
  vm_compute in r; subst r. injection Hm as _ <- _. reflexivity.
Defined.

(** ** The points of a move *)

Section Points.

Lemma lastMerge_cons m m' log : lastMerge (m :: m' :: log) = lastMerge (m' :: log).
Proof. reflexivity. Qed.

Lemma lastMerge_le_sum log :
  Forall (fun m => 0 < new_val m) log -> lastMerge log <= sumMerges log.
Proof.
  induction 1 as [|m log Hm Hlog IH]; [reflexivity|].
  destruct log as [|m' log]; [cbn; lia|].
  rewrite lastMerge_cons. cbn [sumMerges foldr] in *. lia.
Qed.

Lemma lastMerge_lt_sum log :
  Forall (fun m => 0 < new_val m) log -> (2 <= length log)%nat ->
  lastMerge log < sumMerges log.
Proof.
  intros Hpos Hlen. destruct log as [|m [|m' log]]; [cbn in Hlen; lia..|].
  apply Forall_cons in Hpos as [Hm Hpos].
  pose proof (lastMerge_le_sum _ Hpos). rewrite lastMerge_cons.
  cbn [sumMerges foldr] in *. lia.
Qed.

Lemma twosGrid_wf : wf (Tiles twosGrid).
Proof. apply wf_of_cells. Qed.

Lemma twosGrid_inRange : inRange (Tiles twosGrid).
Proof. repeat (constructor; try (cbn; pow2; lia)). Qed.

End Points.

(** C9. The points [Move] returns are the value of the tile made by the
    last merge of the call: each merge overwrites [pointsGained].  With two
    merges or more this is less than the sum of the merged values.  (For
    the grids whose values are in [[0, 2^62)].) *)
Theorem points_are_last_merge : forall fuel dir g w g' pts w',
  wf (Tiles g) -> inRange (Tiles g) ->
  Move fuel dir g w = Some (g', pts, w') ->
  pts = lastMerge (merges fuel dir g w) /\
  Forall (fun m => 0 < new_val m) (merges fuel dir g w) /\
  ((2 <= length (merges fuel dir g w))%nat -> pts < sumMerges (merges fuel dir g w)).
Proof.
  intros fuel dir g w g' pts w' Hwf Hrange HM.
  rewrite Move_unfold in HM.
  destruct (move fuel dir g w) as [[[[g1 didMove] pts1] w1]|] eqn:Hm; [|discriminate].
  assert (pts1 = pts) as ->.
  { destruct didMove; [destruct (spawnTile fuel g1 w1) as [[g2 w2]|]|];
      congruence. }
  destruct (move_result pointsInv fuel dir g w g1 didMove pts w1
              (pointsInv_preserved dir) Hwf) as (_ & _ & (_ & Hp & Hpos));
    [|assumption|].
  - split; [apply inRange_valid; assumption|split; [reflexivity|constructor]].
  - split; [exact Hp|split; [exact Hpos|]].
    intros Hlen; rewrite Hp; apply lastMerge_lt_sum; assumption.
Qed.

(** On the row [2, 2, 2, 2] the move to the left merges twice, each merge
    making a 4, and returns 4, not 8. *)
Lemma points_are_last_merge_witness :
  exists g' w',
    Move enoughFuel DirLeft twosGrid cyclingWorld = Some (g', 4, w') /\
    map new_val (merges enoughFuel DirLeft twosGrid cyclingWorld) = [4; 4] /\
    4 = lastMerge (merges enoughFuel DirLeft twosGrid cyclingWorld) /\
    4 < sumMerges (merges enoughFuel DirLeft twosGrid cyclingWorld).
Proof.
  set (r := Move enoughFuel DirLeft twosGrid cyclingWorld).
  assert (E : Move enoughFuel DirLeft twosGrid cyclingWorld = r) by reflexivity.
  vm_compute in r; subst r.
  eexists _, _. split; [exact E|].
  destruct (points_are_last_merge _ _ _ _ _ _ _ twosGrid_wf twosGrid_inRange E)
    as (Hp & _ & Hlt).
  split; [vm_compute; reflexivity|]. split; [exact Hp|].
  apply Hlt. vm_compute. lia.
Defined.

(** ** A blocked move *)

Section Blocked.

Lemma blocked_spec dir t i j i' j' :
  blocked dir t = true -> (i < gridHeight)%nat -> (j < gridWidth)%nat ->
  neighbour dir i j = Some (i', j') -> Val (cell t i j) <> 0 ->
  Val (cell t i' j') <> 0 /\ Val (cell t i' j') <> Val (cell t i j).
Proof.
  unfold blocked; rewrite forallb_forall; intros H Hi Hj Hn Hv.
  specialize (H i ltac:(apply in_seq; lia)). rewrite forallb_forall in H.
  specialize (H j ltac:(apply in_seq; lia)). rewrite Hn in H.
  apply orb_true_iff in H as [H%Z.eqb_eq|H]; [contradiction|].
  apply andb_true_iff in H as [H1%negb_true_iff%Z.eqb_neq H2%negb_true_iff%Z.eqb_neq].
  auto.
Qed.

Lemma oriented_val dir t row i :
  wf t -> (row < gridHeight)%nat -> (i < gridWidth)%nat ->
  Val ((orient dir (clearedTiles t) !!! row) !!! i) =
    Val (if vertical dir then cell t i row else cell t row i).
Proof.
  intros Hwf Hrow Hi. change ((?m !!! row) !!! i) with (cell m row i).
  unfold orient; destruct (vertical dir);
    rewrite ?cell_transpose, cell_cleared by assumption; reflexivity.
Qed.

(** The four ways [move] reads a direction. *)
Lemma direction_cases dir :
  (dir = DirUp /\ vertical dir = true /\ isReverse dir = false) \/
  (dir = DirDown /\ vertical dir = true /\ isReverse dir = true) \/
  (dir = DirRight /\ vertical dir = false /\ isReverse dir = true) \/
  (vertical dir = false /\ isReverse dir = false /\
   forall i j, neighbour dir i j = match j with O => None | S j' => Some (i, j') end).
Proof.
  unfold vertical, isReverse, neighbour.
  destruct (String.eqb_spec dir DirUp) as [->|_]; [left; auto|].
  destruct (String.eqb_spec dir DirDown) as [->|_]; [right; left; auto|].
  destruct (String.eqb_spec dir DirRight) as [->|_]; [right; right; left; auto|].
  right; right; right; auto.
Qed.

Lemma blocked_plan dir t row :
  wf t -> blocked dir t = true -> (row < gridHeight)%nat ->
  plan (orient dir (clearedTiles t) !!! row) dir = Stay.
Proof.
  intros Hwf Hb Hrow. apply plan_Stay.
  rewrite (wf_row _ row (orient_wf dir _ (clearedTiles_wf _ Hwf)) Hrow).
  intros i Hi np (Hnp & _ & Hnpl) Hnz.
  rewrite (wf_row _ row (orient_wf dir _ (clearedTiles_wf _ Hwf)) Hrow) in Hnpl.
  rewrite !oriented_val in * by assumption.
  assert (forall a b a' b', (a < gridHeight)%nat -> (b < gridWidth)%nat ->
            neighbour dir a b = Some (a', b') -> Val (cell t a b) <> 0 ->
            Val (cell t a' b') <> Val (cell t a b) /\ Val (cell t a' b') <> 0) as Hn
    by (intros a b a' b' Ha Hb' Hnb Hv;
        destruct (blocked_spec dir t a b a' b' Hb Ha Hb' Hnb Hv); auto).
  unfold gridWidth, gridHeight, GridSize in *.
  destruct (direction_cases dir) as
    [(Hd & Hvd & Hrd)|[(Hd & Hvd & Hrd)|[(Hd & Hvd & Hrd)|(Hvd & Hrd & Hleft)]]];
    rewrite Hvd, Hrd in *; try subst dir.
  - destruct (Hn i row np row Hi Hrow) as [H1 H2]; [|assumption|split; [assumption|]].
    + destruct i as [|i]; [lia|]. cbn. do 2 f_equal; lia.
    + intros He; contradiction.
  - destruct (Hn i row np row Hi Hrow) as [H1 H2]; [|assumption|split; [assumption|]].
    + unfold neighbour, gridHeight, gridWidth, GridSize; cbn -[Nat.ltb].
      destruct (Nat.ltb_spec (S i) 4); [do 2 f_equal|]; lia.
    + intros He; contradiction.
  - destruct (Hn row i row np Hrow Hi) as [H1 H2]; [|assumption|split; [assumption|]].
    + unfold neighbour, gridHeight, gridWidth, GridSize; cbn -[Nat.ltb].
      destruct (Nat.ltb_spec (S i) 4); [do 2 f_equal|]; lia.
    + intros He; contradiction.
  - destruct (Hn row i row np Hrow Hi) as [H1 H2]; [|assumption|split; [assumption|]].
    + rewrite Hleft. destruct i as [|i]; [lia|]. do 2 f_equal; lia.
    + intros He; contradiction.
Qed.

Lemma blocked_pass dir t moved pts w :
  wf t -> blocked dir t = true ->
  forEach (seq 0 gridHeight) (moveRow dir) (mkVars (clearedTiles t) false moved pts) w
    = Some (mkVars (clearedTiles t) false moved pts, w).
Proof.
  intros Hwf Hb. pose proof (clearedTiles_wf _ Hwf) as Hwfc.
  cbn [seq gridHeight GridSize forEach]; unfold mbind, M_bind.
  rewrite !moveRow_Stay; try reflexivity; try assumption;
    try (apply blocked_plan; try assumption);
    unfold gridHeight, GridSize; lia.
Qed.

Lemma blocked_move_eq fuel dir g w :
  wf (Tiles g) -> blocked dir (Tiles g) = true ->
  Move (S fuel) dir g w = Some (mkGrid (clearedTiles (Tiles g)) dir, 0, w).
Proof.
  intros Hwf Hb. rewrite Move_unfold, move_unfold. cbn [moveLoop]; unfold mbind, M_bind.
  rewrite blocked_pass by assumption. reflexivity.
Qed.

End Blocked.

Lemma unflagged_cleared (t : list (list Tile)) :
  Forall (Forall (fun x => Cmb x = false)) t -> map (map (setCmb false)) t = t.
Proof.
  induction 1 as [|r t Hr _ IH]; [reflexivity|]. cbn [map]. rewrite IH. f_equal.
  induction Hr as [|x r Hx _ IHr]; [reflexivity|]. cbn [map]. rewrite IHr. f_equal.
  destruct x as [v c u]; cbn in *; subst; reflexivity.
Qed.

(** C2, amended.  When no tile can slide or merge in the direction asked,
    [Move] leaves the value and the identifier of every tile as they were
    and clears every combined-this-turn flag (so a grid without a flag set
    is left as it was); it spawns no tile, draws nothing from the generator,
    issues no identifier, returns zero points, and sets [LastMove] to the
    direction. *)
Theorem blocked_move : forall fuel dir g w,
  wf (Tiles g) -> blocked dir (Tiles g) = true ->
  Move (S fuel) dir g w = Some (mkGrid (Tiles (ClearCmbFlags g)) dir, 0, w) /\
  Tiles (ClearCmbFlags g) = map (map (setCmb false)) (Tiles g) /\
  (Forall (Forall (fun x => Cmb x = false)) (Tiles g) ->
   Tiles (ClearCmbFlags g) = Tiles g).
Proof.
  intros fuel dir g w Hwf Hb.
  rewrite blocked_move_eq by assumption.
  rewrite ClearCmbFlags_map, clearedTiles_map by assumption.
  split; [reflexivity|]. split; [reflexivity|]. apply unflagged_cleared.
Qed.

Lemma blocked_move_witness :
  Move 1 DirLeft columnGrid belowWorld
    = Some (mkGrid (Tiles columnGrid) DirLeft, 0, belowWorld).
Proof.
  destruct (blocked_move 0 DirLeft columnGrid belowWorld) as (HM & _ & Hsame);
    [apply wf_of_cells|reflexivity|].
  rewrite HM, Hsame; [reflexivity|].
  repeat (constructor; try reflexivity).
Defined.

(** C2 as stated fails: after the move to the left that merges [2, 2] into
    a 4 and spawns a 2 below it, the same move is blocked, and it changes
    the tiles all the same, for it clears the flag of the 4. *)
Lemma blocked_move_clears_flag :
  exists g1 w1 g2 w2,
    Move enoughFuel DirLeft pairGrid belowWorld = Some (g1, 4, w1) /\
    wf (Tiles g1) /\ blocked DirLeft (Tiles g1) = true /\
    Move enoughFuel DirLeft g1 w1 = Some (g2, 0, w2) /\
    EqualGrid (Tiles g1) (Tiles g2) = false /\ Tiles g2 <> Tiles g1.
Proof.
  set (r1 := Move enoughFuel DirLeft pairGrid belowWorld).
  assert (E1 : Move enoughFuel DirLeft pairGrid belowWorld = r1) by reflexivity.
  vm_compute in r1; subst r1.
  eexists _, _, _, _. split; [exact E1|].
  split; [apply wf_of_cells|]. split; [reflexivity|].
  match goal with |- Move _ _ ?g1 ?w1 = _ /\ _ =>
    set (r2 := Move enoughFuel DirLeft g1 w1);
    assert (E2 : Move enoughFuel DirLeft g1 w1 = r2) by reflexivity;
    vm_compute in r2; subst r2
  end.
  split; [exact E2|]. split; [reflexivity|discriminate].
Qed.

(** ** The outcome of a board *)

Section OutcomeLemmas.

Lemma existsb_seq_false (f : nat -> bool) n :
  existsb f (seq 0 n) = false <-> forall i, (i < n)%nat -> f i = false.
Proof.
  rewrite <- Bool.not_true_iff_false, existsb_exists. split.
  - intros H i Hi. apply Bool.not_true_iff_false. intros Hf.
    apply H; exists i; split; [apply in_seq; lia|exact Hf].
  - intros H (i & Hi%in_seq & Hf). rewrite H in Hf by lia. discriminate.
Qed.

Lemma existsb2_false (f : nat -> nat -> bool) n m :
  existsb (fun i => existsb (f i) (seq 0 m)) (seq 0 n) = false <->
  forall i j, (i < n)%nat -> (j < m)%nat -> f i j = false.
Proof.
  rewrite existsb_seq_false. split.
  - intros H i j Hi Hj. exact (proj1 (existsb_seq_false _ _) (H i Hi) j Hj).
  - intros H i Hi. apply existsb_seq_false. intros j Hj; apply H; assumption.
Qed.

Lemma isLoss_spec g : isLoss g = true <-> gridlocked (Tiles g).
Proof.
  unfold isLoss, gridlocked, full, noEqualNeighbours.
  set (t := Tiles g).
  match goal with |- context [if existsb ?f ?l then false else _] =>
    destruct (existsb f l) eqn:E1 end.
  { split; [discriminate|]. intros [Hf _]. apply Bool.not_false_iff_true in E1.
    contradiction E1. apply existsb2_false. intros i j Hi Hj.
    apply Z.eqb_neq, Hf; assumption. }
  pose proof (proj1 (existsb2_false _ _ _) E1) as H1.
  match goal with |- context [if existsb ?f ?l then false else _] =>
    destruct (existsb f l) eqn:E2 end.
  { split; [discriminate|]. intros [_ Hn]. apply Bool.not_false_iff_true in E2.
    contradiction E2. apply existsb2_false. intros i j Hi Hj.
    unfold gridWidth, gridHeight, GridSize in *.
    apply Z.eqb_neq. rewrite Nat.add_1_r. apply Hn; lia. }
  pose proof (proj1 (existsb2_false _ _ _) E2) as H2.
  cbv zeta.
  match goal with |- context [if existsb ?f ?l then false else _] =>
    destruct (existsb f l) eqn:E3 end.
  { split; [discriminate|]. intros [_ Hn]. apply Bool.not_false_iff_true in E3.
    contradiction E3. apply existsb2_false. intros i j Hi Hj.
    unfold gridWidth, gridHeight, GridSize in *.
    rewrite !cell_transpose by (unfold gridWidth, gridHeight, GridSize; lia).
    apply Z.eqb_neq. rewrite Nat.add_1_r. apply Hn; lia. }
  pose proof (proj1 (existsb2_false _ _ _) E3) as H3.
  split; [intros _|reflexivity]. split.
  - intros i j Hi Hj. apply Z.eqb_neq, H1; assumption.
  - intros i j Hi Hj. unfold gridWidth, gridHeight, GridSize in *. split; intros Hs.
    + specialize (H2 i j Hi ltac:(lia)). rewrite Nat.add_1_r in H2.
      apply Z.eqb_neq, H2.
    + specialize (H3 j i Hj ltac:(lia)).
      rewrite !cell_transpose in H3 by (unfold gridWidth, gridHeight, GridSize; lia).
      rewrite Nat.add_1_r in H3. apply Z.eqb_neq, H3.
Qed.

Lemma foldl_highest (f : nat -> Z) l h :
  let r := foldl (fun highest b => if highest <? f b then f b else highest) h l in
  h <= r /\ (forall b, b ∈ l -> f b <= r) /\ (r = h \/ exists b, b ∈ l /\ r = f b).
Proof.
  revert h; induction l as [|b l IH]; intros h; cbn [foldl].
  - split; [lia|]. split; [intros b Hb%elem_of_nil; contradiction|auto].
  - destruct (IH (if h <? f b then f b else h)) as (H1 & H2 & H3).
    cbv zeta in *. destruct (Z.ltb_spec h (f b)).
    + split; [lia|]. split.
      * intros b' [->|Hb']%elem_of_cons; [lia|auto].
      * right. destruct H3 as [->|(b' & Hb' & ->)].
        -- exists b; split; [left|reflexivity].
        -- exists b'; split; [right; assumption|reflexivity].
    + split; [lia|]. split.
      * intros b' [->|Hb']%elem_of_cons; [lia|auto].
      * destruct H3 as [->|(b' & Hb' & ->)]; [left; reflexivity|right].
        exists b'; split; [right; assumption|reflexivity].
Qed.

Lemma foldl_highest2 (f : nat -> nat -> Z) cols rows h :
  let r := foldl (fun highest a =>
             foldl (fun highest b => if highest <? f a b then f a b else highest)
               highest cols) h rows in
  h <= r /\ (forall a b, a ∈ rows -> b ∈ cols -> f a b <= r) /\
  (r = h \/ exists a b, a ∈ rows /\ b ∈ cols /\ r = f a b).
Proof.
  revert h; induction rows as [|a rows IH]; intros h; cbn [foldl].
  - split; [lia|]. split; [intros a b Ha%elem_of_nil; contradiction|auto].
  - destruct (foldl_highest (f a) cols h) as (G1 & G2 & G3). cbv zeta in *.
    destruct (IH (foldl (fun highest b => if highest <? f a b then f a b else highest)
                    h cols)) as (H1 & H2 & H3).
    split; [lia|]. split.
    + intros a' b [->|Ha']%elem_of_cons Hb; [specialize (G2 b Hb); lia|auto].
    + destruct H3 as [->|(a' & b & Ha' & Hb & ->)].
      * destruct G3 as [->|(b & Hb & ->)]; [left; reflexivity|right].
        exists a, b; split; [left|auto].
      * right. exists a', b; split; [right; assumption|auto].
Qed.

Lemma HighestTile_spec g n :
  0 < n -> (n <= HighestTile g <-> hasTile n (Tiles g)).
Proof.
  intros Hn. unfold HighestTile, hasTile.
  destruct (foldl_highest2 (fun a b => Val (cell (Tiles g) a b))
              (seq 0 gridWidth) (seq 0 gridHeight) 0) as (H1 & H2 & H3).
  cbv zeta in *. split.
  - intros Hge. destruct H3 as [H3|(a & b & Ha%elem_of_seq & Hb%elem_of_seq & H3)].
    + rewrite H3 in Hge; lia.
    + exists a, b. rewrite <- H3. repeat split; (lia || exact Hge).
  - intros (i & j & Hi & Hj & Hv).
    specialize (H2 i j ltac:(apply elem_of_seq; lia) ltac:(apply elem_of_seq; lia)).
    lia.
Qed.

Lemma GridOutcome_Lose g : GridOutcome g = Lose <-> gridlocked (Tiles g).
Proof.
  rewrite <- isLoss_spec. unfold GridOutcome.
  destruct (isLoss g); [tauto|]. destruct (2048 <=? HighestTile g); split; discriminate.
Qed.

Lemma GridOutcome_Win g :
  GridOutcome g = Win <-> ~ gridlocked (Tiles g) /\ hasTile 2048 (Tiles g).
Proof.
  rewrite <- isLoss_spec, <- (HighestTile_spec g 2048) by lia. unfold GridOutcome.
  destruct (isLoss g).
  - split; [discriminate|]. intros [H _]; contradiction H; reflexivity.
  - destruct (Z.leb_spec 2048 (HighestTile g)).
    + split; [intros _; split; [discriminate|assumption]|reflexivity].
    + split; [discriminate|]. intros [_ ?]; lia.
Qed.

Lemma sameValues_gridlocked t t' :
  (forall i j, Val (cell t' i j) = Val (cell t i j)) -> gridlocked t -> gridlocked t'.
Proof.
  intros H [Hf Hn]; split.
  - intros i j Hi Hj; rewrite H; apply Hf; assumption.
  - intros i j Hi Hj; rewrite !H; apply Hn; assumption.
Qed.

Lemma sameValues_hasTile n t t' :
  (forall i j, Val (cell t' i j) = Val (cell t i j)) -> hasTile n t -> hasTile n t'.
Proof.
  intros H (i & j & Hi & Hj & Hv); exists i, j; rewrite H; auto.
Qed.

End OutcomeLemmas.

(** C1, amended.  The outcome is a function of the values on the board
    alone.  A full board on which no two cells next to each other, in a row
    or in a column, hold the same value gives [Lose], whether or not it
    holds a 2048; a board with a tile of 2048 or more gives [Win] when it is
    not such a gridlocked board. *)
Theorem Outcome_of_board : forall g,
  (gridlocked (Tiles g) -> GridOutcome g = Lose) /\
  (hasTile 2048 (Tiles g) -> ~ gridlocked (Tiles g) -> GridOutcome g = Win) /\
  (forall g',
     (forall i j, Val (cell (Tiles g') i j) = Val (cell (Tiles g) i j)) ->
     GridOutcome g' = GridOutcome g).
Proof.
  intros g. split; [apply GridOutcome_Lose|]. split.
  - intros Hh Hn. apply GridOutcome_Win; auto.
  - intros g' Hsame.
    assert (Hback : forall i j, Val (cell (Tiles g) i j) = Val (cell (Tiles g') i j))
      by (intros; symmetry; apply Hsame).
    destruct (GridOutcome g) eqn:Eg.
    + destruct (GridOutcome g') eqn:Eg'; [reflexivity| |].
      * apply GridOutcome_Win in Eg' as [Hn Hh].
        assert (GridOutcome g = Win) as Hw; [|congruence].
        apply GridOutcome_Win; split;
          [intros Hl; apply Hn; eapply sameValues_gridlocked; eassumption
          |eapply sameValues_hasTile; eassumption].
      * apply GridOutcome_Lose in Eg'.
        assert (GridOutcome g = Lose) as Hw; [|congruence].
        apply GridOutcome_Lose. eapply sameValues_gridlocked; eassumption.
    + apply GridOutcome_Win in Eg as [Hn Hh]. apply GridOutcome_Win; split;
        [intros Hl; apply Hn; eapply sameValues_gridlocked; eassumption
        |eapply sameValues_hasTile; eassumption].
    + apply GridOutcome_Lose in Eg. apply GridOutcome_Lose.
      eapply sameValues_gridlocked; eassumption.
Qed.

Lemma lockedGrid_gridlocked : gridlocked (Tiles lockedGrid).
Proof. apply isLoss_spec. reflexivity. Qed.

Lemma Outcome_of_board_witness :
  GridOutcome lockedGrid = Lose /\ GridOutcome wonGrid = Win.
Proof.
  split.
  - exact (proj1 (Outcome_of_board lockedGrid) lockedGrid_gridlocked).
  - apply (proj1 (proj2 (Outcome_of_board wonGrid))).
    + exists 0%nat, 0%nat. unfold gridHeight, gridWidth, GridSize. cbn. lia.
    + intros [Hf _]. apply (Hf 0%nat 2%nat); unfold gridHeight, gridWidth, GridSize;
        [lia|lia|reflexivity].
Defined.

(** C1 as stated fails: a full board without equal neighbours gives [Lose]
    although it holds a 2048, because [isLoss] is tested first. *)
Lemma Outcome_2048_gridlocked :
  hasTile 2048 (Tiles lockedGrid) /\ GridOutcome lockedGrid = Lose
  /\ GridOutcome lockedGrid <> Win.
Proof.
  split; [|split; [reflexivity|discriminate]].
  exists 0%nat, 0%nat. unfold gridHeight, gridWidth, GridSize. cbn. lia.
Qed.

(** ** Merging once *)

Section Once.

Lemma idsOf_app l l' : idsOf (l ++ l') = idsOf l ++ idsOf l'.
Proof. induction l as [|m l IH]; [reflexivity|]. cbn. rewrite IH. reflexivity. Qed.

Lemma distinctIds_transpose t : distinctIds t -> distinctIds (transpose t).
Proof.
  intros H i j i' j' Hi Hj Hi' Hj'. rewrite !cell_transpose by assumption.
  intros He. destruct (H j i j' i' Hj Hi Hj' Hi' He); auto.
Qed.

Lemma distinctIds_orient dir t : distinctIds t -> distinctIds (orient dir t).
Proof. unfold orient; destruct (vertical dir); [apply distinctIds_transpose|auto]. Qed.

Lemma distinctIds_cleared t : wf t -> distinctIds t -> distinctIds (clearedTiles t).
Proof.
  intros Hwf H i j i' j' Hi Hj Hi' Hj'. rewrite !cell_cleared by assumption.
  cbn. apply H; assumption.
Qed.

Lemma cell_combined reverse T row i np w a b :
  (row < length T)%nat -> canCombine reverse (T !!! row) i np ->
  cell (<[row := combinedRow (T !!! row) i np w]> T) a b =
    if decide (a = row /\ b = i) then mkTile 0 false (S (S (issued w)))
    else if decide (a = row /\ b = np)
         then mkTile (int_add (Val (cell T row i)) (Val (cell T row i))) true
                (S (issued w))
         else cell T a b.
Proof.
  intros Hrow Hc. rewrite cell_insert by assumption.
  destruct (decide (a = row)) as [->|Ha].
  - rewrite (combinedRow_lookup reverse) by assumption. unfold cell.
    repeat case_decide; try reflexivity; tauto.
  - repeat case_decide; try reflexivity; tauto.
Qed.

Lemma cell_slid reverse T row i np w a b :
  (row < length T)%nat -> canSlide reverse (T !!! row) i np ->
  cell (<[row := slidRow (T !!! row) i np w]> T) a b =
    if decide (a = row /\ b = i) then mkTile 0 false (S (issued w))
    else if decide (a = row /\ b = np) then cell T row i
         else cell T a b.
Proof.
  intros Hrow Hc. rewrite cell_insert by assumption.
  destruct (decide (a = row)) as [->|Ha].
  - rewrite (slidRow_lookup reverse) by assumption. unfold cell.
    repeat case_decide; try reflexivity; tauto.
  - repeat case_decide; try reflexivity; tauto.
Qed.

Lemma elem_of_three (x a b c : uuid_UUID) :
  x ∈ [a; b; c] <-> x = a \/ x = b \/ x = c.
Proof.
  rewrite !elem_of_cons, elem_of_nil. tauto.
Qed.

Lemma once_combine reverse T row i np w log pval :
  wf T -> (row < gridHeight)%nat -> canCombine reverse (T !!! row) i np ->
  everywhere (cellOk log w) T -> distinctIds T ->
  Forall (fun u => (u <= issued w)%nat) (idsOf log) -> NoDup (idsOf log) ->
  let m := mkMerged (UUID (cell T row i)) (UUID (cell T row np)) (S (issued w)) pval in
  let T' := <[row := combinedRow (T !!! row) i np w]> T in
  everywhere (cellOk (log ++ [m]) (issue 2 w)) T' /\ distinctIds T' /\
  Forall (fun u => (u <= issued (issue 2 w))%nat) (idsOf (log ++ [m])) /\
  NoDup (idsOf (log ++ [m])).
Proof.
  intros Hwf Hrow Hc Hok Hd Hb Hnd m T'.
  pose proof Hwf as [HlenT _].
  assert (HrowT : (row < length T)%nat) by (rewrite HlenT; exact Hrow).
  pose proof (wf_row _ _ Hwf Hrow) as Hlen.
  pose proof Hc as (Ht & _ & _ & Hci & Hcn).
  pose proof (target_ne _ _ _ _ Ht) as Hne. destruct Ht as (_ & Hi & Hnp).
  rewrite Hlen in Hi, Hnp.
  destruct (Hok row i Hrow Hi) as [Hsle Hsin].
  destruct (Hok row np Hrow Hnp) as [Hdle Hdin].
  change ((T !!! row) !!! i) with (cell T row i) in Hci.
  change ((T !!! row) !!! np) with (cell T row np) in Hcn.
  assert (Hs : UUID (cell T row i) ∉ idsOf log)
    by (intros Hin; rewrite (Hsin Hin) in Hci; discriminate).
  assert (Hdn : UUID (cell T row np) ∉ idsOf log)
    by (intros Hin; rewrite (Hdin Hin) in Hcn; discriminate).
  assert (Hsd : UUID (cell T row i) <> UUID (cell T row np))
    by (intros He; destruct (Hd row i row np Hrow Hi Hrow Hnp He); contradiction).
  rewrite Forall_forall in Hb.
  assert (Hids : idsOf (log ++ [m]) =
                 idsOf log ++ [UUID (cell T row i); UUID (cell T row np); S (issued w)])
    by (rewrite idsOf_app; reflexivity).
  rewrite Hids. split; [|split; [|split]].
  - intros a b Ha Hb'. unfold T'. rewrite (cell_combined reverse) by assumption.
    destruct (Hok a b Ha Hb') as [Hle Hin]. unfold cellOk. rewrite Hids.
    repeat case_decide; (split; [cbn; lia|]); cbn [UUID Cmb];
      try (intros _; reflexivity); rewrite elem_of_app, elem_of_three.
    + intros [Hx|[Hx|[Hx|Hx]]]; [apply Hb in Hx|..]; lia.
    + intros [Hx|[Hx|[Hx|Hx]]]; [auto| | |lia].
      * destruct (Hd a b row i Ha Hb' Hrow Hi Hx); tauto.
      * destruct (Hd a b row np Ha Hb' Hrow Hnp Hx); tauto.
  - intros a b a' b' Ha Hb' Ha' Hb''. unfold T'.
    rewrite !(cell_combined reverse) by assumption.
    destruct (Hok a b Ha Hb') as [Hle _]. destruct (Hok a' b' Ha' Hb'') as [Hle' _].
    repeat case_decide; cbn [UUID]; intros He; try lia; try (split; lia).
    apply Hd; assumption.
  - apply Forall_app; split.
    + apply Forall_forall; intros u Hu; apply Hb in Hu; cbn; lia.
    + repeat constructor; cbn; lia.
  - apply NoDup_app; split; [assumption|split].
    + intros u Hu; rewrite elem_of_three; intros [-> | [-> | ->]];
        [contradiction|contradiction|apply Hb in Hu; lia].
    + rewrite !NoDup_cons, !not_elem_of_cons, NoDup_nil.
      repeat split; try apply not_elem_of_nil; try assumption; lia.
Qed.

Lemma once_slide reverse T row i np w log :
  wf T -> (row < gridHeight)%nat -> canSlide reverse (T !!! row) i np ->
  everywhere (cellOk log w) T -> distinctIds T ->
  Forall (fun u => (u <= issued w)%nat) (idsOf log) ->
  let T' := <[row := slidRow (T !!! row) i np w]> T in
  everywhere (cellOk log (issue 1 w)) T' /\ distinctIds T' /\
  Forall (fun u => (u <= issued (issue 1 w))%nat) (idsOf log).
Proof.
  intros Hwf Hrow Hc Hok Hd Hb T'.
  pose proof Hwf as [HlenT _].
  assert (HrowT : (row < length T)%nat) by (rewrite HlenT; exact Hrow).
  pose proof (wf_row _ _ Hwf Hrow) as Hlen.
  pose proof Hc as (Ht & _ & _).
  pose proof (target_ne _ _ _ _ Ht) as Hne. destruct Ht as (_ & Hi & Hnp).
  rewrite Hlen in Hi, Hnp.
  destruct (Hok row i Hrow Hi) as [Hsle Hsin].
  rewrite Forall_forall in Hb.
  split; [|split].
  - intros a b Ha Hb'. unfold T'. rewrite (cell_slid reverse) by assumption.
    destruct (Hok a b Ha Hb') as [Hle Hin].
    repeat case_decide; (split; [cbn; lia|]); cbn [UUID Cmb]; try assumption.
    intros Hx; apply Hb in Hx; lia.
  - intros a b a' b' Ha Hb' Ha' Hb''. unfold T'.
    rewrite !(cell_slid reverse) by assumption.
    destruct (Hok a b Ha Hb') as [Hle _]. destruct (Hok a' b' Ha' Hb'') as [Hle' _].
    repeat case_decide; cbn [UUID]; intros He; try lia; try (split; lia);
      try (apply Hd; assumption).
    + destruct (Hd row i a' b' Hrow Hi Ha' Hb'' He); subst; tauto.
    + destruct (Hd a b row i Ha Hb' Hrow Hi He); subst; tauto.
  - apply Forall_forall; intros u Hu; apply Hb in Hu; cbn; lia.
Qed.

Lemma onceInv_preserved dir : preserved (onceInv dir) dir.
Proof.
  intros row log v w v' w' Hrow Hwf (Hok & Hd & Hb & Hnd) Hm.
  pose proof (orient_wf dir _ Hwf) as HwfT.
  step_cases Hrow Hwf Hm; unfold onceInv.
  - auto.
  - rewrite HT.
    apply (once_combine (isReverse dir) _ row i np w log); assumption.
  - rewrite HT.
    destruct (once_slide (isReverse dir) _ row i np w log HwfT Hrow Hc Hok Hd Hb)
      as (H1 & H2 & H3). auto.
Qed.

End Once.

Section OnceTheorem.

Lemma idsOf_elem (b : Merged) log :
  b ∈ log -> src_id b ∈ idsOf log /\ dst_id b ∈ idsOf log /\ new_id b ∈ idsOf log.
Proof.
  induction log as [|m log IH]; [intros H%elem_of_nil; contradiction|].
  intros [->|Hb]%elem_of_cons; cbn [idsOf]; rewrite !elem_of_cons; [tauto|].
  destruct (IH Hb) as (? & ? & ?). tauto.
Qed.

Lemma idsOf_apart log :
  NoDup (idsOf log) ->
  forall k j (a b : Merged), (k < j)%nat -> log !! k = Some a -> log !! j = Some b ->
    forall x y, x ∈ [src_id a; dst_id a; new_id a] ->
                y ∈ [src_id b; dst_id b; new_id b] -> x <> y.
Proof.
  induction log as [|m log IH]; intros Hnd k j a b Hkj Ha Hb x y Hx Hy;
    [discriminate|].
  cbn [idsOf] in Hnd. rewrite !NoDup_cons, !not_elem_of_cons in Hnd.
  destruct Hnd as ((_ & _ & Hs) & (_ & Hd) & Hn & Hnd).
  destruct j as [|j]; [lia|]. cbn in Hb.
  destruct k as [|k]; cbn in Ha.
  - injection Ha as <-.
    destruct (idsOf_elem b log (list_elem_of_lookup_2 _ _ _ Hb)) as (Bs & Bd & Bn).
    rewrite elem_of_three in Hx, Hy.
    destruct Hx as [-> | [-> | ->]], Hy as [-> | [-> | ->]]; congruence.
  - apply (IH Hnd k j a b); (lia || assumption).
Qed.

Lemma issuedIds_start dir w t :
  wf t -> issuedIds w t -> everywhere (cellOk [] w) (orient dir (clearedTiles t)).
Proof.
  intros Hwf H. apply everywhere_orient, everywhere_cleared; [assumption|].
  intros i j Hi Hj; split; [apply H; assumption|].
  intros Hin%elem_of_nil; contradiction.
Qed.

End OnceTheorem.

(** C4. Within one call of [Move] no tile merges twice.  The identifiers of
    the tiles that took part in the merges of the call (for each merge the
    tile that moved, the tile it met and the tile they made) are pairwise
    different: a tile made by a merge is neither source nor destination of
    a later merge, and a tile that merged is gone.  [move] clears the flags
    before anything else, so this holds whatever flags the grid carries,
    hence after any sequence of moves.  (Tiles are told apart by their
    identifiers, which are assumed different from each other and issued
    earlier, as [uuid.NewV7] guarantees.) *)
Theorem merge_once : forall fuel dir g w g' pts w',
  wf (Tiles g) -> distinctIds (Tiles g) -> issuedIds w (Tiles g) ->
  Move fuel dir g w = Some (g', pts, w') ->
  NoDup (idsOf (merges fuel dir g w)) /\
  forall k j a b, (k < j)%nat ->
    merges fuel dir g w !! k = Some a -> merges fuel dir g w !! j = Some b ->
    new_id a <> src_id b /\ new_id a <> dst_id b /\
    src_id a <> src_id b /\ src_id a <> dst_id b /\
    dst_id a <> src_id b /\ dst_id a <> dst_id b.
Proof.
  intros fuel dir g w g' pts w' Hwf Hd Hi HM.
  rewrite Move_unfold in HM.
  destruct (move fuel dir g w) as [[[[g1 didMove] pts1] w1]|] eqn:Hm; [|discriminate].
  destruct (move_result (onceInv dir) fuel dir g w g1 didMove pts1 w1
              (onceInv_preserved dir) Hwf) as (_ & _ & (_ & _ & _ & Hnd));
    [|assumption|].
  - split; [apply issuedIds_start; assumption|].
    split; [apply distinctIds_orient, distinctIds_cleared; assumption|].
    split; constructor.
  - split; [exact Hnd|]. intros k j a b Hkj Ha Hb.
    pose proof (idsOf_apart _ Hnd k j a b Hkj Ha Hb) as H.
    repeat split; apply H; rewrite elem_of_three; auto.
Qed.

Lemma twosGrid_distinct : distinctIds (Tiles twosGrid).
Proof.
  intros i j i' j' Hi Hj Hi' Hj'. unfold gridHeight, gridWidth, GridSize in *.
  destruct i as [|[|[|[|i]]]]; [..|lia];
    (destruct j as [|[|[|[|j]]]]; [..|lia]);
    (destruct i' as [|[|[|[|i']]]]; [..|lia]);
    (destruct j' as [|[|[|[|j']]]]; [..|lia]);
    cbn; intros He; (split; [reflexivity || discriminate|reflexivity || discriminate]).
Qed.

Lemma twosGrid_issued : issuedIds cyclingWorld (Tiles twosGrid).
Proof.
  intros i j Hi Hj. unfold gridHeight, gridWidth, GridSize in *.
  destruct i as [|[|[|[|i]]]]; [..|lia];
    (destruct j as [|[|[|[|j]]]]; [..|lia]); cbn; lia.
Qed.

(** On the row [2, 2, 2, 2] the move to the left merges twice; the six
    identifiers involved are all different. *)
Lemma merge_once_witness :
  length (merges enoughFuel DirLeft twosGrid cyclingWorld) = 2%nat /\
  NoDup (idsOf (merges enoughFuel DirLeft twosGrid cyclingWorld)).
Proof.
  split; [reflexivity|].
  set (r := Move enoughFuel DirLeft twosGrid cyclingWorld).
  assert (E : Move enoughFuel DirLeft twosGrid cyclingWorld = r) by reflexivity.
  vm_compute in r; subst r.
  exact (proj1 (merge_once _ _ _ _ _ _ _ twosGrid_wf twosGrid_distinct
                  twosGrid_issued E)).
Defined.

(** ** The seeds of [Reset] *)

Section Seeds.

Lemma newTilesAt_wf n : wf (newTilesAt n).
Proof. apply wf_of_cells. Qed.

Lemma newTilesAt_empty n i j :
  (i < gridHeight)%nat -> (j < gridWidth)%nat -> Val (cell (newTilesAt n) i j) = 0.
Proof.
  unfold gridHeight, gridWidth, GridSize; intros Hi Hj.
  destruct i as [|[|[|[|i]]]]; [..|lia];
    (destruct j as [|[|[|[|j]]]]; [..|lia]); reflexivity.
Qed.

Lemma seeds_values n p1 p2 v1 v2 i j :
  inGrid p1 -> inGrid p2 -> (i < gridHeight)%nat -> (j < gridWidth)%nat ->
  Val (cell (alterCell (setVal v2) p2.1 p2.2
               (alterCell (setVal v1) p1.1 p1.2 (newTilesAt n))) i j) =
    if decide ((i, j) = p2) then v2
    else if decide ((i, j) = p1) then v1 else 0.
Proof.
  intros [Hx1 Hy1] [Hx2 Hy2] Hi Hj.
  pose proof (newTilesAt_wf n) as Hwf.
  pose proof (alterCell_wf (setVal v1) p1.1 p1.2 _ Hwf) as Hwf1.
  rewrite cell_alterCell;
    [|destruct Hwf1 as [Hl _]; rewrite Hl; assumption
     |rewrite wf_row by assumption; assumption].
  rewrite (pair_eta p2). case_decide; [reflexivity|].
  rewrite cell_alterCell;
    [|destruct Hwf as [Hl _]; rewrite Hl; assumption
     |rewrite wf_row by assumption; assumption].
  rewrite (pair_eta p1). case_decide; [reflexivity|].
  apply newTilesAt_empty; assumption.
Qed.

Lemma NumTiles_seeds n p1 p2 v1 v2 d :
  inGrid p1 -> inGrid p2 -> p1 <> p2 -> v1 <> 0 -> v2 <> 0 ->
  NumTiles (mkGrid (alterCell (setVal v2) p2.1 p2.2
                      (alterCell (setVal v1) p1.1 p1.2 (newTilesAt n))) d) = 2.
Proof.
  destruct p1 as [x1 y1], p2 as [x2 y2].
  unfold inGrid, gridHeight, gridWidth, GridSize; cbn [fst snd].
  intros [Hx1 Hy1] [Hx2 Hy2] Hne Hv1%Z.eqb_neq Hv2%Z.eqb_neq.
  destruct x1 as [|[|[|[|x1]]]]; [..|lia];
    (destruct y1 as [|[|[|[|y1]]]]; [..|lia]);
    (destruct x2 as [|[|[|[|x2]]]]; [..|lia]);
    (destruct y2 as [|[|[|[|y2]]]]; [..|lia]);
    try (contradiction Hne; reflexivity);
    cbn; rewrite ?Hv1, ?Hv2; reflexivity.
Qed.

Lemma newTileVal_threshold w :
  let v := if Qle_bool (9 # 10) (unitDraw w) then 4 else 2 in
  newTileVal w = Some (v, advance 1 w) /\
  (v = 4 <-> (9 # 10 <= unitDraw w)%Q) /\
  (v = 2 <-> (unitDraw w < 9 # 10)%Q) /\
  (0 <= unitDraw w)%Q /\ (unitDraw w < 1)%Q.
Proof.
  cbv zeta. split; [apply newTileVal_unit|].
  pose proof (Qle_bool_iff (9 # 10) (unitDraw w)) as Hq.
  assert (Hb : 0 <= stream w (drawn w) `mod` 2 ^ 53 < 2 ^ 53)
    by (apply Z.mod_pos_bound; reflexivity).
  split; [|split; [|split]].
  - destruct (Qle_bool _ _); split; intros H; try reflexivity; try discriminate.
    + apply Hq; reflexivity.
    + apply Hq in H; discriminate.
  - destruct (Qle_bool _ _) eqn:E; split; intros H; try reflexivity; try discriminate.
    + apply Qlt_not_le in H. contradiction H. apply Hq; reflexivity.
    + apply Qnot_le_lt. intros Hle%Hq. discriminate.
  - unfold unitDraw, Qle; cbn. lia.
  - unfold unitDraw, Qlt; cbn. lia.
Qed.

End Seeds.

(** C6. [Reset] leaves exactly two tiles on the board, at two different
    cells.  The first cell is the first pair of coordinates the generator
    yields (each coordinate an [Intn(4)] draw), the second is the first
    later pair that differs from it (pairs equal to the first are drawn
    again), so with uniform draws the two cells are uniform among the
    pairs of different cells.  Each value is what [newTileVal], the function
    [spawnTile] uses, makes of its own [Float64] draw, a number in
    [[0, 1)]: 4 when the draw is at least 0.9 and 2 otherwise.  [Reset]
    returns for a generator that reaches every cell. *)
Theorem Reset_two_seeds : forall g w,
  (reachesEveryCell w ->
     exists fuel0, forall fuel, (fuel0 <= fuel)%nat ->
       exists r, Reset fuel g w = Some r) /\
  (forall fuel g' w', Reset fuel g w = Some (g', w') ->
     exists k,
       let p1 := coordAt w 0 in
       let p2 := coordAt w k in
       let wv := advance (2 * (k + 1)) (issue 16 w) in
       let v1 := if Qle_bool (9 # 10) (unitDraw wv) then 4 else 2 in
       let v2 := if Qle_bool (9 # 10) (unitDraw (advance 1 wv)) then 4 else 2 in
       (1 <= k)%nat /\ (forall j, (1 <= j < k)%nat -> coordAt w j = p1) /\
       p2 <> p1 /\ inGrid p1 /\ inGrid p2 /\
       newTileVal wv = Some (v1, advance 1 wv) /\
       newTileVal (advance 1 wv) = Some (v2, advance 2 wv) /\
       (forall i j, (i < gridHeight)%nat -> (j < gridWidth)%nat ->
          Val (cell (Tiles g') i j) =
            if decide ((i, j) = p2) then v2
            else if decide ((i, j) = p1) then v1 else 0) /\
       NumTiles g' = 2) /\
  (forall w0,
     let v := if Qle_bool (9 # 10) (unitDraw w0) then 4 else 2 in
     newTileVal w0 = Some (v, advance 1 w0) /\
     (v = 4 <-> (9 # 10 <= unitDraw w0)%Q) /\
     (v = 2 <-> (unitDraw w0 < 9 # 10)%Q) /\
     (0 <= unitDraw w0)%Q /\ (unitDraw w0 < 1)%Q).
Proof.
  intros g w. split; [apply Reset_returns|].
  split; [|apply newTileVal_threshold].
  intros fuel g' w' HR.
  destruct (Reset_spec _ _ _ _ _ HR) as (k & Hk & Hne & Hall & Ht & Hl & Hw).
  cbv zeta in Ht. exists k. cbv zeta.
  assert (Hp1 : inGrid (coordAt w 0)) by apply coordAt_range.
  assert (Hp2 : inGrid (coordAt w k)) by apply coordAt_range.
  split; [exact Hk|]. split; [exact Hall|]. split; [exact Hne|].
  split; [exact Hp1|]. split; [exact Hp2|].
  split; [apply newTileVal_unit|]. split; [apply newTileVal_unit|].
  split.
  - intros i j Hi Hj. rewrite Ht. apply seeds_values; assumption.
  - destruct g' as [t' l']; cbn [Tiles] in Ht; rewrite Ht.
    apply (NumTiles_seeds (issued w) (coordAt w 0) (coordAt w k)
             (if Qle_bool (9 # 10)
                   (unitDraw (advance (2 * (k + 1)) (issue 16 w))) then 4 else 2)
             (if Qle_bool (9 # 10)
                   (unitDraw (advance 1 (advance (2 * (k + 1)) (issue 16 w))))
              then 4 else 2) l' Hp1 Hp2).
    + intros He; apply Hne; symmetry; exact He.
    + match goal with |- (if ?c then _ else _) <> _ => destruct c; discriminate end.
    + match goal with |- (if ?c then _ else _) <> _ => destruct c; discriminate end.
Qed.

Lemma Reset_two_seeds_witness :
  (exists fuel0, forall fuel, (fuel0 <= fuel)%nat ->
     exists r, Reset fuel rowGrid cyclingWorld = Some r) /\
  exists g' w',
    Reset 1 rowGrid cyclingWorld = Some (g', w') /\
    valsOf (Tiles g') = [[2; 2; 0; 0]; [0; 0; 0; 0]; [0; 0; 0; 0]; [0; 0; 0; 0]] /\
    NumTiles g' = 2.
Proof.
  destruct (Reset_two_seeds rowGrid cyclingWorld) as (Hret & Hspec & _).
  split; [exact (Hret cyclingWorld_reaches)|].
  set (r := Reset 1 rowGrid cyclingWorld).
  assert (E : Reset 1 rowGrid cyclingWorld = r) by reflexivity.
  vm_compute in r; subst r.
  eexists _, _. split; [exact E|]. split; [reflexivity|].
  destruct (Hspec _ _ _ E) as (k & H). cbv zeta in H.
  destruct H as (_ & _ & _ & _ & _ & _ & _ & _ & Hn). exact Hn.
Defined.

(** ** What the handlers answer and what they drop *)

(** C7. On an EventData message that carries ScreenLoaded, a side whose
    encoder and transport work writes exactly two messages to its peer:
    first its own game data, then the request for the peer's game data.
    It does so as host and as guest, in whatever state its own screen is;
    its game and its mirror of the opponent are not touched. *)
Theorem ScreenLoaded_reply : forall (codec : Codec) data content s wire gd rq dest,
  ParseMessage data = inr (mkMessage TypeEventData content) ->
  ParseEventData content = inr (mkEventData EventScreenLoaded) ->
  SerialiseGameData (mkGameData (backend s)) = inr gd ->
  SerialiseRequestData (mkRequestData TypeGameData) = inr rq ->
  peers (conn s) = [dest] ->
  failing wire (attempts wire) = None ->
  failing wire (S (attempts wire)) = None ->
  handleOpponentData data s wire =
    (None, s,
     mkWire (sent wire ++ [(dest, gd); (dest, rq)]) (S (S (attempts wire)))
       (failing wire)).
Proof.
  intros codec data content s wire gd rq dest Hm He Hgd Hrq Hp Hf1 Hf2.
  unfold handleOpponentData. rewrite Hm; cbn [Type_ Content]. rewrite He.
  unfold handleEventData; cbn [Event_].
  unfold sendGameData, requestOpponentGameData. rewrite Hgd, Hrq.
  unfold sendToOpponent. destruct (conn s) as [ids|]; cbn [peers] in Hp.
  - destruct ids as [|id [|id' ids]]; try discriminate. injection Hp as <-.
    cbn [writeToClients]. unfold wireWrite. rewrite Hf1; cbn [attempts failing sent].
    rewrite Hf2. rewrite <- app_assoc. reflexivity.
  - injection Hp as <-.
    unfold wireWrite. rewrite Hf1; cbn [attempts failing sent].
    rewrite Hf2. rewrite <- app_assoc. reflexivity.
Qed.

Lemma ScreenLoaded_reply_witness :
  handleOpponentData [Byte.x02; Byte.x00] guestScreen quietWire =
    (None, guestScreen,
     mkWire [(None, [Byte.x01]); (None, [Byte.x03; Byte.x01])] 2 (fun _ => None))
  /\
  handleOpponentData [Byte.x02; Byte.x00] hostScreen quietWire =
    (None, hostScreen,
     mkWire [(Some 7%nat, [Byte.x01]); (Some 7%nat, [Byte.x03; Byte.x01])] 2
       (fun _ => None)).
Proof.
  split.
  - apply (ScreenLoaded_reply toyCodec [Byte.x02; Byte.x00] [Byte.x00] guestScreen
             quietWire [Byte.x01] [Byte.x03; Byte.x01] None); reflexivity.
  - apply (ScreenLoaded_reply toyCodec [Byte.x02; Byte.x00] [Byte.x00] hostScreen
             quietWire [Byte.x01] [Byte.x03; Byte.x01] (Some 7%nat)); reflexivity.
Defined.

(** C8. A payload that does not decode, or whose type is none of GameData,
    EventData and RequestData, or whose content does not decode as its
    type says, makes [handleOpponentData] return the error that names the
    failure; the game of the side, its mirror of the opponent, its
    connection and the transport are as before.  The callback logs the
    error and goes on.  [handleServerData] of the join screen does the same
    with the two types it knows. *)
Theorem bad_payload_dropped : forall (codec : Codec) version data err,
  (undecodable data err ->
   forall s wire log,
     handleOpponentData data s wire = (Some err, s, wire) /\
     exists label, onOpponentData data s wire log = (s, wire, log ++ [(label, err)])) /\
  (undecodableByGuest data err ->
   forall s log,
     handleServerData version data s = (Some err, s) /\
     exists label, onServerData version data s log = (s, log ++ [(label, err)])).
Proof.
  intros codec version data err. split.
  - intros Hbad s wire log.
    assert (H : handleOpponentData data s wire = (Some err, s, wire)).
    { unfold handleOpponentData.
      destruct Hbad as [e Hm|msg Hm Hg He Hr|msg e Hm Ht Hc|msg e Hm Ht Hc|msg e Hm Ht Hc];
        rewrite Hm; try reflexivity; try (rewrite Ht, Hc; reflexivity).
      destruct (Type_ msg); try reflexivity; contradiction. }
    split; [exact H|]. unfold onOpponentData. rewrite H. eauto.
  - intros Hbad s log.
    assert (H : handleServerData version data s = (Some err, s)).
    { unfold handleServerData.
      destruct Hbad as [e Hm|msg Hm He Hp|msg e Hm Ht Hc|msg e Hm Ht Hc];
        rewrite Hm; try reflexivity; try (rewrite Ht, Hc; reflexivity).
      destruct (Type_ msg); try reflexivity; contradiction. }
    split; [exact H|]. unfold onServerData. rewrite H. eauto.
Qed.

Lemma bad_payload_dropped_witness :
  handleOpponentData [] guestScreen quietWire
    = (Some (Wrap "failed to parse message" (Failure "empty message")),
       guestScreen, quietWire) /\
  handleOpponentData [Byte.x00] hostScreen quietWire
    = (Some (UnsupportedType "PlayerData"), hostScreen, quietWire) /\
  handleOpponentData [Byte.x02; Byte.x09] hostScreen quietWire
    = (Some (Wrap "failed to parse event data" (Failure "bad event")),
       hostScreen, quietWire) /\
  handleServerData "1.0" [Byte.x01] joinScreen
    = (Some (UnsupportedType "GameData"), joinScreen).
Proof.
  split; [|split; [|split]].
  - apply (proj1 (bad_payload_dropped toyCodec "1.0" [] _)); [|exact []].
    apply bad_message. reflexivity.
  - apply (proj1 (bad_payload_dropped toyCodec "1.0" [Byte.x00] _)); [|exact []].
    apply (bad_type [Byte.x00] (mkMessage TypePlayerData [])); try reflexivity;
      discriminate.
  - apply (proj1 (bad_payload_dropped toyCodec "1.0" [Byte.x02; Byte.x09] _));
      [|exact []].
    apply (bad_event [Byte.x02; Byte.x09] (mkMessage TypeEventData [Byte.x09]));
      reflexivity.
  - apply (proj2 (bad_payload_dropped toyCodec "1.0" [Byte.x01] _)); [|exact []].
    apply (guest_bad_type [Byte.x01] (mkMessage TypeGameData [])); try reflexivity;
      discriminate.
Defined.
